(** * Verification of template-processor: [Processor] and [checkDOM]
    (src/src/class/Processor.class.ts).

    The DOM is modelled by values: a node is a text node or an element
    with a tag name, its child nodes and, for [<template>] elements, the
    child nodes of its [content] fragment (empty for other elements).
    Objects that the code refers to by identity (the container passed to
    [populateList], the fragments produced by [cloneNode]) live in a heap
    indexed by [nat]; a [<template>] is referred to by the heap object
    that holds it and its path of child indices below that object. *)

From Stdlib Require Import String Ascii List Bool Arith Lia ZArith.
Import ListNotations.
Open Scope string_scope.

(** ** DOM nodes *)

#[local] Set Warnings "-register-all".
Inductive node : Type :=
| Text (s : string)
| Elem (tag : string) (kids : list node) (content : list node).

(** Path of child-node indices from a parent to one of its descendants. *)
Definition path := list nat.

(** ASCII lower-casing, as [String.prototype.toLowerCase] acts on tag names. *)
Definition lower_ascii (c : ascii) : ascii :=
  let n := nat_of_ascii c in
  if ((65 <=? n) && (n <=? 90))%nat then ascii_of_nat (n + 32) else c.

Fixpoint toLowerCase (s : string) : string :=
  match s with
  | EmptyString => EmptyString
  | String c s' => String (lower_ascii c) (toLowerCase s')
  end.

Definition is_elem (n : node) : bool :=
  match n with Elem _ _ _ => true | Text _ => false end.

(** [ParentNode.children]: the element children, text nodes left out. *)
Definition children (l : list node) : list node := filter is_elem l.

(** [Element.matches(sel)] for a type selector [sel] (lower case); type
    selectors match HTML elements ASCII case-insensitively. *)
Definition matches (sel : string) (n : node) : bool :=
  match n with
  | Elem t _ _ => String.eqb (toLowerCase t) sel
  | Text _ => false
  end.

(** Two elements are of the same type (for [:first-of-type] and
    [:last-of-type]) when their local names are equal. *)
Definition same_type (x y : node) : bool :=
  match x, y with
  | Elem a _ _, Elem b _ _ => String.eqb a b
  | _, _ => false
  end.

(** [querySelector]: the first descendant element, in document (pre-)order,
    satisfying [pred]; [pred] sees the preceding and following siblings of
    the candidate, as structural pseudo-classes do. Template contents are
    not descendants. The result is the element and its path. *)
Fixpoint qs_node (pred : list node -> node -> list node -> bool) (n : node)
    : option (path * node) :=
  match n with
  | Text _ => None
  | Elem _ ks _ =>
      (fix go (before : list node) (i : nat) (l : list node) : option (path * node) :=
         match l with
         | [] => None
         | x :: rest =>
             if is_elem x && pred before x rest then Some ([i], x) else
             match qs_node pred x with
             | Some (p, y) => Some (i :: p, y)
             | None => go ((before ++ [x])%list) (S i) rest
             end
         end) [] 0 ks
  end.

(** The same search over a list of sibling nodes. *)
Fixpoint qs_go (pred : list node -> node -> list node -> bool)
    (before : list node) (i : nat) (l : list node) : option (path * node) :=
  match l with
  | [] => None
  | x :: rest =>
      if is_elem x && pred before x rest then Some ([i], x) else
      match qs_node pred x with
      | Some (p, y) => Some (i :: p, y)
      | None => qs_go pred ((before ++ [x])%list) (S i) rest
      end
  end.

Definition querySelector (pred : list node -> node -> list node -> bool)
    (l : list node) : option (path * node) := qs_go pred [] 0 l.

(** Selector [t]. *)
Definition sel_tag (t : string) : list node -> node -> list node -> bool :=
  fun _ x _ => matches t x.

(** Selector [t:last-of-type]. *)
Definition sel_last_of_type (t : string) : list node -> node -> list node -> bool :=
  fun _ x rest => matches t x && forallb (fun y => negb (same_type x y)) rest.

(** Selector [t:first-of-type]. *)
Definition sel_first_of_type (t : string) : list node -> node -> list node -> bool :=
  fun before x _ => matches t x && forallb (fun y => negb (same_type x y)) before.

(** [querySelectorAll('*')]: all descendant elements in document order;
    [desc_node n] is [n] (when an element) followed by its descendants. *)
Fixpoint desc_node (n : node) : list node :=
  match n with
  | Text _ => []
  | Elem _ ks _ => n :: flat_map desc_node ks
  end.

Definition descendants (l : list node) : list node := flat_map desc_node l.

(** Number of elements among the first [i] child nodes. *)
Definition elem_index (l : list node) (i : nat) : Z :=
  Z.of_nat (length (children (firstn i l))).

(** [[...parent.children].indexOf(el)] for an element found at path [p]
    below [parent]: its index among the element children when it is a
    child, [-1] otherwise ([indexOf] compares by identity). *)
Definition indexOf_children (l : list node) (r : option (path * node)) : Z :=
  match r with
  | Some ([i], _) => elem_index l i
  | _ => (-1)%Z
  end.

(** ** Results and errors *)

Inductive error : Type :=
| ReferenceError (msg : string)
| TypeError (msg : string)
| Rejection (reason : string).   (* reason of a rejected future *)

Inductive result (A : Type) : Type :=
| Ok (a : A)
| Err (e : error).
Arguments Ok {A} a.
Arguments Err {A} e.

(** ** [checkDOM] *)

Definition child_tagname_map : list (string * string) :=
  [("ol", "li"); ("ul", "li"); ("table", "tbody"); ("thead", "tr");
   ("tbody", "tr"); ("tfoot", "tr"); ("tr", "td"); ("dl", "dt-dd")].

(** [Map.prototype.get]. *)
Fixpoint map_get (m : list (string * string)) (k : string) : option string :=
  match m with
  | [] => None
  | (k', v) :: m' => if String.eqb k k' then Some v else map_get m' k
  end.

(** [new Map(...).get(tag) || null]: an empty string is falsy too. *)
Definition child_tagname (tag : string) : option string :=
  match map_get child_tagname_map tag with
  | Some v => if String.eqb v "" then None else Some v
  | None => None
  end.

Definition is_template (n : node) : bool := matches "template" n.

Definition template_content (n : node) : list node :=
  match n with Elem _ _ c => c | Text _ => [] end.

(** The checks on the template content, after the template was found. *)
Definition check_content (ltag : string) (content : list node) : result unit :=
  match child_tagname ltag with
  | None => Err (TypeError ("<" ++ ltag ++ "> elements are not yet supported."))
  | Some ct =>
    if negb (String.eqb ct "dt-dd") then
      if negb (length (children content) =? 1)%nat then
        Err (TypeError "The <template> must contain exactly 1 element.")
      else if negb (match children content with
                    | c0 :: _ => matches ct c0 | [] => false end) then
        Err (TypeError ("The <template> must contain exactly 1 <" ++ ct ++ ">."))
      else Ok tt
    else
      if (length (children content) <? 2)%nat then
        Err (TypeError "The <template> must contain at least 2 elements.")
      else if match querySelector (sel_tag "dt") content,
                    querySelector (sel_tag "dd") content with
              | Some _, Some _ => false | _, _ => true end then
        Err (TypeError "The <template> must contain at least 1 <dt> and at least 1 <dd>.")
      else if existsb (fun el => negb (matches "dt" el || matches "dd" el))
                      (descendants content) then
        Err (TypeError "The <template> must only contain <dt> or <dd> elements.")
      else if (indexOf_children content (querySelector (sel_last_of_type "dt") content)
               >=? indexOf_children content (querySelector (sel_first_of_type "dd") content))%Z then
        Err (TypeError "All <dd> elements must follow all <dt> elements inside the <template>.")
      else Ok tt
  end.

(** [checkDOM(list)] for a container with tag name [tagName] and child
    nodes [kids]; returns the path of the template it validated. *)
Definition checkDOM (tagName : string) (kids : list node) : result path :=
  match querySelector (sel_tag "template") kids with
  | None => Err (ReferenceError
                  ("This <" ++ toLowerCase tagName ++ "> does not have a <template> descendant."))
  | Some (p, t) =>
      match check_content (toLowerCase tagName) (template_content t) with
      | Ok _ => Ok p
      | Err e => Err e
      end
  end.

(** ** Heap objects, futures and the state/error monad *)

(** A heap object: an element (tag name as [Element.tagName]) or a
    fragment (tag ["#document-fragment"], its [nodeName]), with its child
    nodes. *)
Record obj : Type := mkObj { otag : string; okids : list node }.

(** The heap; ids that were never allocated hold an empty object. *)
Definition heap := nat -> obj.

Definition upd (h : heap) (k : nat) (o : obj) : heap :=
  fun i => if Nat.eqb i k then o else h i.

(** A JavaScript object literal, as used for processing options. *)
Definition jsobject (A : Type) := list (string * A).

(** A future (JavaScript [Promise]) that settles at time [settle_at]. *)
Record future (A : Type) : Type := mkFut { settle_at : nat; outcome : result A }.
Arguments mkFut {A} settle_at outcome.
Arguments settle_at {A} f.
Arguments outcome {A} f.

(** An argument typed [A | Promise<A>]. *)
Inductive maybe_future (A : Type) : Type :=
| Plain (a : A)
| Prom (p : future A).
Arguments Plain {A} a.
Arguments Prom {A} p.

(** [Promise.all]: fulfils when every future has, in order; rejects as
    the earliest rejecting future does. *)
Definition all_step {A} (f : future A) (r : future (list A)) : future (list A) :=
  match outcome f, outcome r with
  | Ok a, Ok l => mkFut (Nat.max (settle_at f) (settle_at r)) (Ok (a :: l))
  | Err e, Ok _ => mkFut (settle_at f) (Err e)
  | Ok _, Err e => mkFut (settle_at r) (Err e)
  | Err e1, Err e2 =>
      if Nat.leb (settle_at f) (settle_at r) then mkFut (settle_at f) (Err e1)
      else mkFut (settle_at r) (Err e2)
  end.

Fixpoint promise_all {A} (fs : list (future A)) : future (list A) :=
  match fs with
  | [] => mkFut 0 (Ok [])
  | f :: fs' => all_step f (promise_all fs')
  end.

Section Model.

(** [V]: the type of the data records; [W]: the values in options objects. *)
Context {V W : Type}.

(** Observable events: console messages, invocations of fill functions
    (with their arguments and the time of the call), the settling of an
    asynchronous fill, and appends to a container. *)
Inductive event : Type :=
| EInfo (msg : string)
| EWarn (msg : string)
| ECall (frag : nat) (data : V) (opts : jsobject W) (t : nat)
| ECallAsync (frag : nat) (data : V) (opts : jsobject W) (t : nat)
| EFillDone (frag : nat) (t : nat)
| EAppend (target : nat) (t : nat).

Record St : Type := mkSt { hp : heap; next : nat; now : nat; log : list event }.

Definition M (A : Type) : Type := St -> result A * St.

Definition ret {A} (a : A) : M A := fun s => (Ok a, s).

Definition bind {A B} (m : M A) (k : A -> M B) : M B :=
  fun s => match m s with
           | (Ok a, s') => k a s'
           | (Err e, s') => (Err e, s')
           end.

Definition throw {A} (e : error) : M A := fun s => (Err e, s).

Definition lift_result {A} (r : result A) : M A :=
  match r with Ok a => ret a | Err e => throw e end.

Definition emit (e : event) : M unit :=
  fun s => (Ok tt, mkSt (hp s) (next s) (now s) (log s ++ [e])).

Definition read_obj (id : nat) : M obj := fun s => (Ok (hp s id), s).

Fixpoint mapM {A B} (f : A -> M B) (l : list A) : M (list B) :=
  match l with
  | [] => ret []
  | x :: l' => fun s => match f x s with
                        | (Ok b, s1) => match mapM f l' s1 with
                                        | (Ok bs, s2) => (Ok (b :: bs), s2)
                                        | (Err e, s2) => (Err e, s2)
                                        end
                        | (Err e, s1) => (Err e, s1)
                        end
  end.

(** [await x]: a plain value is taken as it is; a future is waited for
    (the clock moves to its settling time) and its outcome is taken. *)
Definition await {A} (x : maybe_future A) : M A :=
  match x with
  | Plain a => ret a
  | Prom p => fun s => (outcome p, mkSt (hp s) (next s) (Nat.max (now s) (settle_at p)) (log s))
  end.

(** Calling an async function without awaiting it: its body runs from the
    current state, the caller's clock stays where it was, and the caller
    receives the future of the body's outcome. *)
Definition spawn {A} (m : M A) : M (future A) :=
  fun s => let (r, s') := m s in
           (Ok (mkFut (now s') r), mkSt (hp s') (next s') (now s) (log s')).

End Model.

Arguments event : clear implicits.
Arguments St : clear implicits.
Arguments M : clear implicits.

Notation "x <- m ;; k" := (bind m (fun x => k))
  (at level 61, m at next level, right associativity).
Notation "m ;; k" := (bind m (fun _ => k)) (at level 61, right associativity).

(** ** The [Processor] class *)

(** The element at a path below a list of sibling nodes. *)
Fixpoint node_at (l : list node) (p : path) : option node :=
  match p with
  | [] => None
  | i :: p' =>
      match nth_error l i with
      | None => None
      | Some x =>
          match p' with
          | [] => Some x
          | _ => match x with Elem _ ks _ => node_at ks p' | Text _ => None end
          end
      end
  end.

(** A reference to a [<template>] element: the heap object holding it and
    its path below that object. *)
Definition tref := (nat * path)%type.

(** [template.content] read through a reference (a reference that does not
    lead to an element reads as an empty content). *)
Definition tmpl_content (h : heap) (r : tref) : list node :=
  match node_at (okids (h (fst r))) (snd r) with
  | Some n => template_content n
  | None => []
  end.

Section Processor.
Context {V W : Type}.

(** [ProcessingFunction]: called with the id of the fragment to fill, the
    data and the options; its effect is on the heap. *)
Definition ProcessingFunction : Type := nat -> V -> jsobject W -> heap -> heap.

(** [ProcessingFunctionAsync]: the heap after the returned promise has
    settled, and the time that promise takes to settle. *)
Definition ProcessingFunctionAsync : Type := nat -> V -> jsobject W -> heap -> heap * nat.

Record Processor : Type := mkProcessor {
  _TEMPLATE : tref;
  _INSTRUCTIONS : ProcessingFunction;
  _INSTRUCTIONS_ASYNC : option ProcessingFunctionAsync
}.

(** [template.content.cloneNode(true)]: a new fragment object holding a
    copy of the content. *)
Definition clone_content (r : tref) : M V W nat :=
  fun s => let id := next s in
           (Ok id, mkSt (upd (hp s) id (mkObj "#document-fragment" (tmpl_content (hp s) r)))
                        (S id) (now s) (log s)).

(** [options: W = ({} as W)]: the default applies to an undefined argument. *)
Definition default_options {A} (o : option A) (dflt : A) : A :=
  match o with Some a => a | None => dflt end.

(** static [Processor.process(frag, instructions, data, options)] *)
Definition process_static (frag : nat) (instructions : ProcessingFunction)
    (data : V) (options : option (jsobject W)) : M V W nat :=
  let o := default_options options [] in
  fun s => (Ok frag, mkSt (instructions frag data o (hp s)) (next s) (now s)
                          (log s ++ [ECall frag data o (now s)])).

(** [await instructions(frag, d, o)] *)
Definition call_async (frag : nat) (instructions : ProcessingFunctionAsync)
    (d : V) (o : jsobject W) : M V W unit :=
  fun s => let (h', dur) := instructions frag d o (hp s) in
           (Ok tt, mkSt h' (next s) (now s + dur)
                        (log s ++ [ECallAsync frag d o (now s); EFillDone frag (now s + dur)])).

(** static [Processor.processAsync(frag, instructions, data, options)] *)
Definition processAsync_static (frag : nat) (instructions : ProcessingFunctionAsync)
    (data : maybe_future V) (options : option (maybe_future (jsobject W))) : M V W nat :=
  let options' := default_options options (Plain []) in
  d <- await data ;;
  o <- await options' ;;
  call_async frag instructions d o ;;
  ret frag.

Definition msg_info : string :=
  "An asynchronous instruction is available; did you mean to call `processAsync()`?".
Definition msg_warn : string :=
  "No asynchronous instructions found. Executing synchronous instructions instead...".

(** [Processor#process(data, options)] *)
Definition process (p : Processor) (data : V) (options : option (jsobject W)) : M V W nat :=
  (match _INSTRUCTIONS_ASYNC p with Some _ => emit (EInfo msg_info) | None => ret tt end) ;;
  frag <- clone_content (_TEMPLATE p) ;;
  process_static frag (_INSTRUCTIONS p) data options.

(** [await options] for an optional argument: [await undefined] is [undefined]. *)
Definition await_opt {A} (o : option (maybe_future A)) : M V W (option A) :=
  match o with
  | None => ret None
  | Some x => a <- await x ;; ret (Some a)
  end.

(** [Processor#processAsync(data, options)] *)
Definition processAsync (p : Processor) (data : maybe_future V)
    (options : option (maybe_future (jsobject W))) : M V W nat :=
  match _INSTRUCTIONS_ASYNC p with
  | None =>
      emit (EWarn msg_warn) ;;
      d <- await data ;;
      o <- await_opt options ;;
      process p d o
  | Some ia =>
      frag <- clone_content (_TEMPLATE p) ;;
      processAsync_static frag ia data options
  end.

(** [list.append(...frags)] for fragments: their child nodes move, in
    order, to the end of the container's child nodes. *)
Definition append (target : nat) (frags : list nat) : M V W unit :=
  fun s =>
    let h := hp s in
    let moved := flat_map (fun f => okids (h f)) frags in
    let h1 := fold_left (fun h' f => upd h' f (mkObj (otag (h' f)) [])) frags h in
    let h2 := upd h1 target (mkObj (otag (h target)) (okids (h target) ++ moved)) in
    (Ok tt, mkSt h2 (next s) (now s) (log s ++ [EAppend target (now s)])).

(** static [Processor.populateList(list, instructions, dataset, options)] *)
Definition populateList (list_el : nat) (instructions : ProcessingFunction)
    (dataset : list V) (options : option (jsobject W)) : M V W unit :=
  c <- read_obj list_el ;;
  tp <- lift_result (checkDOM (otag c) (okids c)) ;;
  let processor := mkProcessor (list_el, tp) instructions None in
  frags <- mapM (fun data => process processor data options) dataset ;;
  append list_el frags.

(** static [Processor.populateListAsync(list, instructions, dataset, options)] *)
Definition populateListAsync (list_el : nat) (instructions : ProcessingFunctionAsync)
    (dataset : maybe_future (list V)) (options : option (maybe_future (jsobject W))) : M V W unit :=
  c <- read_obj list_el ;;
  tp <- lift_result (checkDOM (otag c) (okids c)) ;;
  let processor := mkProcessor (list_el, tp) (fun _ _ _ h => h) (Some instructions) in
  ds <- await dataset ;;
  futs <- mapM (fun data => spawn (processAsync processor (Plain data) options)) ds ;;
  frags <- await (Prom (promise_all futs)) ;;
  append list_el frags.

End Processor.

(** ** Specification side *)

(** The table of the spec (section 4.2) for the containers whose template
    must hold exactly one element: the required child tag, by lower-cased
    container tag. *)
Definition spec_required_child (ltag : string) : option string :=
  if String.eqb ltag "ol" || String.eqb ltag "ul" then Some "li"
  else if String.eqb ltag "table" then Some "tbody"
  else if String.eqb ltag "thead" || String.eqb ltag "tbody" || String.eqb ltag "tfoot"
  then Some "tr"
  else if String.eqb ltag "tr" then Some "td"
  else None.

(** The container tags the spec lists as supported. *)
Definition supported_tags : list string :=
  ["ol"; "ul"; "table"; "thead"; "tbody"; "tfoot"; "tr"; "dl"].

(** An argument of type [A | Promise<A>] that yields [a] when awaited:
    the value itself, or a future that fulfils with it. *)
Definition fulfils {A} (x : maybe_future A) (a : A) : Prop :=
  x = Plain a \/ exists t, x = Prom (mkFut t (Ok a)).

(** The same for an optional argument, [None] standing for [undefined]. *)
Definition opt_fulfils {A} (x : option (maybe_future A)) (a : option A) : Prop :=
  match x, a with
  | None, None => True
  | Some x', Some a' => fulfils x' a'
  | _, _ => False
  end.

(** The time at which awaiting an argument resumes at the latest: that
    of the future, none for a plain value or an undefined argument. *)
Definition await_time {A} (x : maybe_future A) : nat :=
  match x with Plain _ => 0 | Prom p => settle_at p end.

Definition await_opt_time {A} (x : option (maybe_future A)) : nat :=
  match x with None => 0 | Some x' => await_time x' end.

(** The fragment object [cloneNode(true)] makes from a template reference. *)
Definition clone_obj (h : heap) (r : tref) : obj :=
  mkObj "#document-fragment" (tmpl_content h r).

(** A fill function that writes to no heap object but the fragment it is
    given. *)
Definition writes_only_frag {V W} (f : @ProcessingFunction V W) : Prop :=
  forall fr d o h i, i <> fr -> f fr d o h i = h i.

Definition writes_only_frag_async {V W} (f : @ProcessingFunctionAsync V W) : Prop :=
  forall fr d o h i, i <> fr -> fst (f fr d o h) i = h i.

(** Both fill functions of a Processor write only to their fragment. *)
Definition fills_write_only_frag {V W} (p : @Processor V W) : Prop :=
  writes_only_frag (_INSTRUCTIONS p) /\
  forall ia, _INSTRUCTIONS_ASYNC p = Some ia -> writes_only_frag_async ia.

(** One call of an instance method of [p], [process] or [processAsync],
    from state [s] to [s'] with result [r]. *)
Definition instance_call {V W} (p : @Processor V W) (s : St V W) (r : result nat)
    (s' : St V W) : Prop :=
  (exists d o, process p d o s = (r, s')) \/
  (exists data options, processAsync p data options s = (r, s')).

(** A fill function whose effect on its fragment depends on nothing in the
    heap but that fragment. *)
Definition reads_only_frag {V W} (f : @ProcessingFunction V W) : Prop :=
  forall fr d o h1 h2, h1 fr = h2 fr -> f fr d o h1 fr = f fr d o h2 fr.

(** The fragment object a (fragment-local) fill function makes of a fresh
    clone, object [fr], of a template content. *)
Definition fill_clone {V W} (f : @ProcessingFunction V W) (fr : nat) (d : V)
    (o : jsobject W) (content : list node) : obj :=
  f fr d o (upd (fun _ => mkObj "" []) fr (mkObj "#document-fragment" content)) fr.

(** The child nodes of the filled clones for the records [ds], the first
    one being object [fr], concatenated in order. *)
Fixpoint filled_from {V W} (f : @ProcessingFunction V W) (fr : nat) (ds : list V)
    (o : jsobject W) (content : list node) : list node :=
  match ds with
  | [] => []
  | d :: ds' => okids (fill_clone f fr d o content) ++ filled_from f (S fr) ds' o content
  end.

(** The log of the asynchronous fills of records [ds] on fragments
    [fr], [fr+1], ..., all called at time [T0], the fill of the k-th record
    taking [durs[k]]. *)
Fixpoint async_log {V W} (fr : nat) (ds : list V) (durs : list nat) (o : jsobject W)
    (T0 : nat) : list (event V W) :=
  match ds, durs with
  | d :: ds', du :: durs' =>
      ECallAsync fr d o T0 :: EFillDone fr (T0 + du) :: async_log (S fr) ds' durs' o T0
  | _, _ => []
  end.

(** The futures of fills on fragments [fr], [fr+1], ... started at [T0]. *)
Fixpoint fut_list (fr : nat) (durs : list nat) (T0 : nat) : list (future nat) :=
  match durs with
  | [] => []
  | du :: durs' => mkFut (T0 + du) (Ok fr) :: fut_list (S fr) durs' T0
  end.

(** A fill function of [processAsync] whose result on its fragment (the
    filled fragment object) depends on nothing but that fragment. *)
Definition reads_only_frag_async {V W} (f : @ProcessingFunctionAsync V W) : Prop :=
  forall fr d o h1 h2, h1 fr = h2 fr -> fst (f fr d o h1) fr = fst (f fr d o h2) fr.

(** The fragment object an asynchronous (fragment-local) fill makes of a
    fresh clone, object [fr], of a template content. *)
Definition fill_clone_async {V W} (f : @ProcessingFunctionAsync V W) (fr : nat) (d : V)
    (o : jsobject W) (content : list node) : obj :=
  fst (f fr d o (upd (fun _ => mkObj "" []) fr (mkObj "#document-fragment" content))) fr.

Fixpoint filled_from_async {V W} (f : @ProcessingFunctionAsync V W) (fr : nat) (ds : list V)
    (o : jsobject W) (content : list node) : list node :=
  match ds with
  | [] => []
  | d :: ds' => okids (fill_clone_async f fr d o content)
                ++ filled_from_async f (S fr) ds' o content
  end.

(** Induction on nodes reaching the element children. *)
Section NodeInd.
Variable P : node -> Prop.
Hypothesis HText : forall s, P (Text s).
Hypothesis HElem : forall t ks c, Forall P ks -> P (Elem t ks c).

Fixpoint node_ind' (n : node) : P n :=
  match n with
  | Text s => HText s
  | Elem t ks c =>
      HElem t ks c
        ((fix go (l : list node) : Forall P l :=
            match l with
            | [] => Forall_nil P
            | x :: l' => @Forall_cons _ P x l' (node_ind' x) (go l')
            end) ks)
  end.
End NodeInd.

(** ** Further definitions *)

(** Content whose elements have no element children (text only). *)
Definition flat (l : list node) : Prop :=
  Forall (fun x => match x with Elem _ ks _ => children ks = [] | Text _ => True end) l.

(** Content whose elements have lower-case tag names, as the HTML parser
    and [document.createElement] give them. *)
Definition lower_tags (l : list node) : Prop :=
  Forall (fun x => match x with Elem t _ _ => toLowerCase t = t | Text _ => True end) l.

(** The log of the synchronous fills of records [ds] on fragments [fr],
    [fr+1], ..., all called at time [t]. *)
Fixpoint sync_log {V W} (fr : nat) (ds : list V) (o : jsobject W) (t : nat)
    : list (event V W) :=
  match ds with
  | [] => []
  | d :: ds' => ECall fr d o t :: sync_log (S fr) ds' o t
  end.

(** An argument typed [A | Promise<A>] that rejects with [e]. *)
Definition rejects {A} (x : maybe_future A) (e : error) : Prop :=
  exists t, x = Prom (mkFut t (Err e)).

(** The class [ProcessorAsync] of [ProcessorAsync.class.ts]. *)
Module ProcessorAsyncClass.
Section Def.
Context {V W : Type}.

Record ProcessorAsync : Type := mkProcessorAsync {
  _TEMPLATE : tref;
  _INSTRUCTIONS : @ProcessingFunctionAsync V W
}.

(** [ProcessorAsync#process(data, options = {})] *)
Definition process (p : ProcessorAsync) (data : V) (options : option (jsobject W))
    : M V W nat :=
  frag <- clone_content (_TEMPLATE p) ;;
  call_async frag (_INSTRUCTIONS p) data (default_options options []) ;;
  ret frag.

End Def.
End ProcessorAsyncClass.

(** * Sanity checks *)

Example checkDOM_ol_ok :
  checkDOM "OL" [Text " "; Elem "template" [] [Text " "; Elem "li" [Text "x"] []]] = Ok [1].
Proof. reflexivity. Qed.

Example checkDOM_dl_bad :
  exists m, checkDOM "DL" [Elem "template" [] [Elem "dd" [] []; Elem "dt" [] []]] = Err (TypeError m).
Proof. eexists. reflexivity. Qed.

(** * Properties *)

Ltac eqb_cases :=
  repeat match goal with
         | H : context [String.eqb ?a ?b] |- _ =>
             destruct (String.eqb_spec a b); subst; simpl in H
         end.

Lemma child_tagname_single (l req : string) :
  spec_required_child l = Some req ->
  child_tagname l = Some req /\ String.eqb req "dt-dd" = false.
Proof.
  unfold spec_required_child; intro H; eqb_cases;
    try discriminate; injection H as <-; split; reflexivity.
Qed.

Lemma child_tagname_unsupported (l : string) :
  ~ In l supported_tags -> child_tagname l = None.
Proof.
  intro Hn; unfold child_tagname; simpl.
  repeat match goal with
         | |- context [String.eqb ?a ?b] =>
             destruct (String.eqb_spec a b);
             [subst; exfalso; apply Hn; simpl; tauto | ]
         end.
  reflexivity.
Qed.

(** C1: for a container whose lower-cased tag is one of ol, ul, table,
    thead, tbody, tfoot, tr and which has a template, [checkDOM] accepts
    (returning that template) when the template content has exactly one
    element child and it matches the required tag; otherwise it fails with
    a TypeError. *)
Theorem checkDOM_single_child (tagName : string) (kids : list node) (p : path)
    (t : node) (req : string) :
  spec_required_child (toLowerCase tagName) = Some req ->
  querySelector (sel_tag "template") kids = Some (p, t) ->
  ((exists c, children (template_content t) = [c] /\ matches req c = true) ->
     checkDOM tagName kids = Ok p) /\
  (~ (exists c, children (template_content t) = [c] /\ matches req c = true) ->
     exists m, checkDOM tagName kids = Err (TypeError m)).
Proof.
  intros Hreq Hq.
  destruct (child_tagname_single _ _ Hreq) as [Hct Hnd].
  unfold checkDOM, check_content; rewrite Hq, Hct, Hnd; simpl.
  destruct (children (template_content t)) as [| c0 [| c1 r]] eqn:Hc; simpl.
  - split; [intros (c & Hc' & _); discriminate | intros _; eexists; reflexivity].
  - destruct (matches req c0) eqn:Hm; simpl.
    + split; [reflexivity | intros Hn; exfalso; apply Hn; eauto].
    + split; [intros (c & Hc' & Hm'); injection Hc' as ->; congruence
             | intros _; eexists; reflexivity].
  - split; [intros (c & Hc' & _); discriminate | intros _; eexists; reflexivity].
Qed.

Lemma checkDOM_single_child_witness :
  spec_required_child (toLowerCase "UL") = Some "li" /\
  querySelector (sel_tag "template") [Elem "template" [] [Elem "li" [] []]]
    = Some ([0], Elem "template" [] [Elem "li" [] []]) /\
  checkDOM "UL" [Elem "template" [] [Elem "li" [] []]] = Ok [0].
Proof.
  split; [reflexivity | split; [reflexivity | ]].
  apply (proj1 (checkDOM_single_child "UL" [Elem "template" [] [Elem "li" [] []]] [0]
                  (Elem "template" [] [Elem "li" [] []]) "li" eq_refl eq_refl)).
  exists (Elem "li" [] []); split; reflexivity.
Defined.

(** C2 (defect): a dl container whose template content is a dd holding a
    dt, followed by a dt, is accepted by [checkDOM], although a dd child
    precedes a dt child: [dt:last-of-type] is searched among all
    descendants and finds the nested dt, whose index among the children is
    -1. *)
Theorem checkDOM_dl_dd_before_dt_accepted :
  checkDOM "DL" [Elem "template" [] [Elem "dd" [Elem "dt" [] []] []; Elem "dt" [] []]]
  = Ok [0].
Proof. reflexivity. Qed.

Definition dl_dd_before_dt_state : St nat nat :=
  mkSt (upd (fun _ => mkObj "" []) 0
          (mkObj "DL" [Elem "template" [] [Elem "dd" [Elem "dt" [] []] []; Elem "dt" [] []]]))
       1 0 [].

(** C3 (defect): on a dl container whose template content is a dd holding
    a dt, followed by a dt (a dd child before a dt child, against the dl
    shape rule), neither [populateList] nor [populateListAsync] fails: both
    call the fill function for the record and append the filled clone's
    child nodes to the container, since [checkDOM] accepts the template. *)
Theorem populate_dl_dd_before_dt_not_rejected :
  (let (r, s') := populateList 0 (fun _ _ _ h => h) [7] None dl_dd_before_dt_state in
   r = Ok tt /\ log s' = [ECall 1 7 [] 0; EAppend 0 0] /\
   okids (hp s' 0) = [Elem "template" [] [Elem "dd" [Elem "dt" [] []] []; Elem "dt" [] []];
                      Elem "dd" [Elem "dt" [] []] []; Elem "dt" [] []]) /\
  (let (r, s') := populateListAsync 0 (fun (fr d : nat) (_ : jsobject nat) h => (h, 1))
                    (Plain [7]) None dl_dd_before_dt_state in
   r = Ok tt /\ log s' = [ECallAsync 1 7 [] 0; EFillDone 1 1; EAppend 0 1] /\
   okids (hp s' 0) = [Elem "template" [] [Elem "dd" [Elem "dt" [] []] []; Elem "dt" [] []];
                      Elem "dd" [Elem "dt" [] []] []; Elem "dt" [] []]).
Proof. vm_compute; repeat split; reflexivity. Qed.

(** C4: static [process] calls the fill function exactly once, on
    [(frag, data, options)] at the current time, with [{}] when the
    options are omitted, and returns [frag] itself. *)
Theorem process_static_spec {V W : Type} (frag : nat)
    (instructions : @ProcessingFunction V W) (data : V)
    (options : option (jsobject W)) (s : St V W) :
  let o := match options with Some o => o | None => [] end in
  process_static frag instructions data options s
  = (Ok frag, mkSt (instructions frag data o (hp s)) (next s) (now s)
                   (log s ++ [ECall frag data o (now s)])).
Proof. destruct options; reflexivity. Qed.

Lemma check_content_type_error (l : string) (content : list node) (e : error) :
  check_content l content = Err e -> exists m, e = TypeError m.
Proof.
  unfold check_content.
  destruct (child_tagname l) as [ct |].
  - repeat match goal with
           | |- context [if ?b then _ else _] => destruct b
           end; intro H; inversion H; eauto.
  - intro H; inversion H; eauto.
Qed.

Lemma check_content_unsupported (l : string) (content : list node) :
  ~ In l supported_tags -> exists m, check_content l content = Err (TypeError m).
Proof.
  intro Hn; unfold check_content; rewrite (child_tagname_unsupported l Hn); eauto.
Qed.

(** ** Awaiting fulfilled arguments *)

Lemma await_fulfils {V W A : Type} (x : maybe_future A) (a : A) (s : St V W) :
  fulfils x a ->
  await x s = (Ok a, mkSt (hp s) (next s) (Nat.max (now s) (await_time x)) (log s)).
Proof.
  intros [-> | (t & ->)]; simpl.
  - rewrite Nat.max_0_r; destruct s; reflexivity.
  - reflexivity.
Qed.

Lemma await_opt_fulfils {V W A : Type} (x : option (maybe_future A)) (a : option A)
    (s : St V W) :
  opt_fulfils x a ->
  await_opt x s = (Ok a, mkSt (hp s) (next s) (Nat.max (now s) (await_opt_time x)) (log s)).
Proof.
  destruct x as [x |], a as [a |]; simpl; try tauto.
  - intro H; unfold bind; rewrite (await_fulfils x a s H); reflexivity.
  - intros _; rewrite Nat.max_0_r; destruct s; reflexivity.
Qed.

Lemma await_default_fulfils {V W : Type} (x : option (maybe_future (jsobject W)))
    (a : option (jsobject W)) (s : St V W) :
  opt_fulfils x a ->
  await (default_options x (Plain [])) s
  = (Ok (default_options a []),
     mkSt (hp s) (next s) (Nat.max (now s) (await_opt_time x)) (log s)).
Proof.
  destruct x as [x |], a as [a |]; simpl; try tauto.
  - apply await_fulfils.
  - intros _; rewrite Nat.max_0_r; destruct s; reflexivity.
Qed.

(** Instance [processAsync] without asynchronous instructions, when the data
    and options arguments fulfil. *)
Lemma processAsync_none_eq {V W : Type} (p : @Processor V W) (data : maybe_future V)
    (d : V) (options : option (maybe_future (jsobject W))) (o : option (jsobject W))
    (s : St V W) :
  _INSTRUCTIONS_ASYNC p = None -> fulfils data d -> opt_fulfils options o ->
  let T := Nat.max (Nat.max (now s) (await_time data)) (await_opt_time options) in
  let o' := default_options o [] in
  processAsync p data options s =
    (Ok (next s),
     mkSt (_INSTRUCTIONS p (next s) d o'
             (upd (hp s) (next s) (clone_obj (hp s) (_TEMPLATE p))))
          (S (next s)) T
          (log s ++ [EWarn msg_warn; ECall (next s) d o' T])).
Proof.
  intros Hn Hd Ho T o'.
  set (s1 := mkSt (hp s) (next s) (now s) (log s ++ [EWarn msg_warn])).
  pose proof (await_fulfils data d s1 Hd) as H1.
  set (s2 := mkSt (hp s1) (next s1) (Nat.max (now s1) (await_time data)) (log s1)).
  pose proof (await_opt_fulfils options o s2 Ho) as H2.
  unfold processAsync; rewrite Hn.
  unfold bind at 1; unfold emit; fold s1.
  unfold bind at 1; rewrite H1; fold s2.
  unfold bind at 1; rewrite H2.
  unfold process; rewrite Hn; simpl.
  unfold process_static; simpl.
  unfold bind, ret, clone_content, clone_obj; simpl; rewrite <- app_assoc; reflexivity.
Qed.

(** C5: instance [processAsync] on a Processor without asynchronous
    instructions does not fail when its data and options arguments fulfil:
    it logs the advisory warning, awaits the arguments, runs the
    synchronous instructions once on a fresh clone of the template content
    (the object [next s]) and fulfils with that fragment. *)
Theorem processAsync_sync_fallback {V W : Type} (p : @Processor V W)
    (data : maybe_future V) (d : V)
    (options : option (maybe_future (jsobject W))) (o : option (jsobject W))
    (s : St V W) :
  _INSTRUCTIONS_ASYNC p = None -> fulfils data d -> opt_fulfils options o ->
  exists T,
    now s <= T /\
    processAsync p data options s =
      (Ok (next s),
       mkSt (_INSTRUCTIONS p (next s) d (default_options o [])
               (upd (hp s) (next s) (clone_obj (hp s) (_TEMPLATE p))))
            (S (next s)) T
            (log s ++ [EWarn msg_warn; ECall (next s) d (default_options o []) T])).
Proof.
  intros Hn Hd Ho.
  pose proof (processAsync_none_eq p data d options o s Hn Hd Ho) as H.
  eexists; split; [| exact H]; lia.
Qed.

Lemma processAsync_static_eq {V W : Type} (frag : nat)
    (ia : @ProcessingFunctionAsync V W) (data : maybe_future V) (d : V)
    (options : option (maybe_future (jsobject W))) (o : option (jsobject W))
    (s : St V W) :
  fulfils data d -> opt_fulfils options o ->
  let T := Nat.max (Nat.max (now s) (await_time data)) (await_opt_time options) in
  let o' := default_options o [] in
  processAsync_static frag ia data options s =
    (Ok frag,
     mkSt (fst (ia frag d o' (hp s))) (next s) (T + snd (ia frag d o' (hp s)))
          (log s ++ [ECallAsync frag d o' T; EFillDone frag (T + snd (ia frag d o' (hp s)))])).
Proof.
  intros Hd Ho T o'.
  pose proof (await_fulfils data d s Hd) as H1.
  set (s1 := mkSt (hp s) (next s) (Nat.max (now s) (await_time data)) (log s)).
  pose proof (await_default_fulfils options o s1 Ho) as H2.
  unfold processAsync_static, bind at 1; rewrite H1; fold s1.
  unfold bind at 1; rewrite H2.
  unfold bind, call_async, ret; simpl.
  unfold o', T; destruct (ia frag d (default_options o []) (hp s)) as [h' dur]; reflexivity.
Qed.

Lemma processAsync_some_eq {V W : Type} (p : @Processor V W)
    (ia : ProcessingFunctionAsync) (data : maybe_future V) (d : V)
    (options : option (maybe_future (jsobject W))) (o : option (jsobject W))
    (s : St V W) :
  _INSTRUCTIONS_ASYNC p = Some ia -> fulfils data d -> opt_fulfils options o ->
  let T := Nat.max (Nat.max (now s) (await_time data)) (await_opt_time options) in
  let o' := default_options o [] in
  let h1 := upd (hp s) (next s) (clone_obj (hp s) (_TEMPLATE p)) in
  processAsync p data options s =
    (Ok (next s),
     mkSt (fst (ia (next s) d o' h1)) (S (next s)) (T + snd (ia (next s) d o' h1))
          (log s ++ [ECallAsync (next s) d o' T; EFillDone (next s) (T + snd (ia (next s) d o' h1))])).
Proof.
  intros Hs Hd Ho T o' h1.
  unfold processAsync; rewrite Hs.
  unfold bind at 1, clone_content.
  exact (processAsync_static_eq (next s) ia data d options o
           (mkSt h1 (S (next s)) (now s) (log s)) Hd Ho).
Qed.

(** C7: when the data argument is a future fulfilling at time [t] with
    [d] (and the options argument fulfils), static [processAsync] and
    instance [processAsync] (with or without asynchronous instructions)
    call their fill function with [d] and the awaited options at a time
    [T >= t], and fulfil (at [T] plus the fill's duration) with the
    fragment that fill produced from [d]. *)
Theorem processAsync_awaits_data_future {V W : Type} (t : nat) (d : V)
    (options : option (maybe_future (jsobject W))) (o : option (jsobject W))
    (s : St V W) :
  opt_fulfils options o ->
  let o' := default_options o [] in
  (forall (frag : nat) (ia : ProcessingFunctionAsync),
     exists T, t <= T /\
     processAsync_static frag ia (Prom (mkFut t (Ok d))) options s =
       (Ok frag,
        mkSt (fst (ia frag d o' (hp s))) (next s) (T + snd (ia frag d o' (hp s)))
             (log s ++ [ECallAsync frag d o' T; EFillDone frag (T + snd (ia frag d o' (hp s)))]))) /\
  (forall (p : Processor) (ia : ProcessingFunctionAsync),
     _INSTRUCTIONS_ASYNC p = Some ia ->
     let h1 := upd (hp s) (next s) (clone_obj (hp s) (_TEMPLATE p)) in
     exists T, t <= T /\
     processAsync p (Prom (mkFut t (Ok d))) options s =
       (Ok (next s),
        mkSt (fst (ia (next s) d o' h1)) (S (next s)) (T + snd (ia (next s) d o' h1))
             (log s ++ [ECallAsync (next s) d o' T;
                        EFillDone (next s) (T + snd (ia (next s) d o' h1))]))) /\
  (forall (p : Processor),
     _INSTRUCTIONS_ASYNC p = None ->
     exists T, t <= T /\
     processAsync p (Prom (mkFut t (Ok d))) options s =
       (Ok (next s),
        mkSt (_INSTRUCTIONS p (next s) d o' (upd (hp s) (next s) (clone_obj (hp s) (_TEMPLATE p))))
             (S (next s)) T
             (log s ++ [EWarn msg_warn; ECall (next s) d o' T]))).
Proof.
  intros Ho o'.
  assert (Hd : fulfils (Prom (mkFut t (Ok d))) d) by (right; eauto).
  split; [| split].
  - intros frag ia.
    pose proof (processAsync_static_eq frag ia _ d options o s Hd Ho) as H.
    eexists; split; [| exact H]; simpl; lia.
  - intros p ia Hs h1.
    pose proof (processAsync_some_eq p ia _ d options o s Hs Hd Ho) as H.
    eexists; split; [| exact H]; simpl; lia.
  - intros p Hn.
    pose proof (processAsync_none_eq p _ d options o s Hn Hd Ho) as H.
    eexists; split; [| exact H]; simpl; lia.
Qed.

(** A state with one container, object 0: an [<ol>] holding a template. *)
Definition ol_state : St nat nat :=
  mkSt (upd (fun _ => mkObj "" []) 0
          (mkObj "OL" [Elem "template" [] [Elem "li" [] []]]))
       1 0 [].

Definition ol_processor (ia : option (@ProcessingFunctionAsync nat nat)) : @Processor nat nat :=
  mkProcessor (0, [0]) (fun _ _ _ h => h) ia.

Lemma processAsync_sync_fallback_witness :
  exists T, now ol_state <= T /\
    processAsync (ol_processor None) (Prom (mkFut 5 (Ok 42))) None ol_state =
      (Ok 1,
       mkSt (upd (hp ol_state) 1 (mkObj "#document-fragment" [Elem "li" [] []]))
            2 T (log ol_state ++ [EWarn msg_warn; ECall 1 42 [] T])).
Proof.
  apply (processAsync_sync_fallback (ol_processor None) (Prom (mkFut 5 (Ok 42))) 42
           None None ol_state eq_refl).
  - right; exists 5; reflexivity.
  - exact I.
Defined.

Lemma processAsync_awaits_data_future_witness :
  exists T, 5 <= T /\
    processAsync_static 7 (fun _ _ _ h => (h, 3)) (Prom (mkFut 5 (Ok 42))) None ol_state =
      (Ok 7, mkSt (hp ol_state) 1 (T + 3) ([ECallAsync 7 42 [] T; EFillDone 7 (T + 3)])).
Proof.
  exact (proj1 (processAsync_awaits_data_future 5 42 None None ol_state I)
           7 (fun _ _ _ h => (h, 3))).
Defined.

(** ** Fresh clones *)

Lemma upd_other (h : heap) (k i : nat) (o : obj) : i <> k -> upd h k o i = h i.
Proof. intro H; unfold upd; destruct (Nat.eqb_spec i k); congruence. Qed.

Lemma upd_same (h : heap) (k : nat) (o : obj) : upd h k o k = o.
Proof. unfold upd; rewrite Nat.eqb_refl; reflexivity. Qed.

Lemma process_frame {V W : Type} (p : @Processor V W) (d : V)
    (o : option (jsobject W)) (s s' : St V W) (r : result nat) :
  writes_only_frag (_INSTRUCTIONS p) ->
  process p d o s = (r, s') ->
  r = Ok (next s) /\ next s' = S (next s) /\
  (forall i, i <> next s -> hp s' i = hp s i) /\
  hp s' (next s) = _INSTRUCTIONS p (next s) d (default_options o [])
                     (upd (hp s) (next s) (clone_obj (hp s) (_TEMPLATE p))) (next s).
Proof.
  intros Hf H.
  unfold process, bind, clone_content, process_static, clone_obj in H.
  destruct (_INSTRUCTIONS_ASYNC p); simpl in H; injection H as <- <-; simpl.
  all: split; [reflexivity | split; [reflexivity | split; [| reflexivity]]].
  all: intros i Hi; rewrite Hf by exact Hi; apply upd_other; exact Hi.
Qed.

Lemma await_state {V W A : Type} (x : maybe_future A) (s s' : St V W) (r : result A) :
  await x s = (r, s') -> hp s' = hp s /\ next s' = next s.
Proof. destruct x; simpl; intro H; injection H as _ <-; split; reflexivity. Qed.

Lemma await_opt_state {V W A : Type} (x : option (maybe_future A)) (s s' : St V W)
    (r : result (option A)) :
  await_opt x s = (r, s') -> hp s' = hp s /\ next s' = next s.
Proof.
  destruct x as [x |]; simpl.
  - unfold bind; destruct (await x s) as [[a | e] s1] eqn:E; intro H;
      apply await_state in E; destruct E as [E1 E2]; injection H as _ <-;
      split; assumption.
  - intro H; injection H as _ <-; split; reflexivity.
Qed.

Lemma processAsync_static_frame {V W : Type} (frag : nat) (ia : @ProcessingFunctionAsync V W)
    (data : maybe_future V) (options : option (maybe_future (jsobject W)))
    (s s' : St V W) (r : result nat) :
  writes_only_frag_async ia ->
  processAsync_static frag ia data options s = (r, s') ->
  next s' = next s /\ (forall i, i <> frag -> hp s' i = hp s i) /\
  (forall n, r = Ok n -> n = frag).
Proof.
  intros Ha H.
  unfold processAsync_static, bind in H.
  destruct (await data s) as [[d | e] s1] eqn:E1;
    apply await_state in E1; destruct E1 as [E1 E1'].
  2: { injection H as <- <-; split; [assumption | split; [ | discriminate]].
       intros i _; rewrite E1; reflexivity. }
  destruct (await (default_options options (Plain [])) s1) as [[o | e] s2] eqn:E2;
    apply await_state in E2; destruct E2 as [E2 E2'].
  2: { injection H as <- <-; split; [congruence | split; [ | discriminate]].
       intros i _; rewrite E2, E1; reflexivity. }
  unfold call_async, ret in H.
  destruct (ia frag d o (hp s2)) as [h' dur] eqn:E3.
  injection H as <- <-; simpl.
  split; [congruence | split; [| intros n Hn; injection Hn as <-; reflexivity]].
  intros i Hi.
  replace h' with (fst (ia frag d o (hp s2))) by (rewrite E3; reflexivity).
  rewrite Ha by exact Hi; rewrite E2, E1; reflexivity.
Qed.

Lemma processAsync_frame {V W : Type} (p : @Processor V W) (data : maybe_future V)
    (options : option (maybe_future (jsobject W))) (s s' : St V W) (r : result nat) :
  fills_write_only_frag p ->
  processAsync p data options s = (r, s') ->
  next s <= next s' <= S (next s) /\
  (forall i, i <> next s -> hp s' i = hp s i) /\
  (forall n, r = Ok n -> n = next s /\ next s' = S (next s)).
Proof.
  intros [Hf Ha] H.
  unfold processAsync in H.
  destruct (_INSTRUCTIONS_ASYNC p) as [ia |] eqn:Hia.
  - unfold bind at 1, clone_content in H.
    set (s1 := mkSt (upd (hp s) (next s)
                       (mkObj "#document-fragment" (tmpl_content (hp s) (_TEMPLATE p))))
                    (S (next s)) (now s) (log s)) in H.
    apply processAsync_static_frame in H; [| exact (Ha ia eq_refl)].
    destruct H as (H1 & H2 & H3); simpl in H1.
    split; [lia | split].
    + intros i Hi; rewrite H2 by exact Hi; apply upd_other; exact Hi.
    + intros n Hn; split; [apply H3; exact Hn | exact H1].
  - unfold bind at 1, emit in H.
    set (s1 := mkSt (hp s) (next s) (now s) (log s ++ [EWarn msg_warn])) in H.
    unfold bind at 1 in H.
    destruct (await data s1) as [[d | e] s2] eqn:E1;
      apply await_state in E1; destruct E1 as [E1 E1'].
    2: { injection H as <- <-; split; [simpl in *; lia | split; [| discriminate]].
         intros i _; rewrite E1; reflexivity. }
    unfold bind at 1 in H.
    destruct (await_opt options s2) as [[o | e] s3] eqn:E2;
      apply await_opt_state in E2; destruct E2 as [E2 E2'].
    2: { injection H as <- <-; split; [simpl in *; lia | split; [| discriminate]].
         intros i _; rewrite E2, E1; reflexivity. }
    destruct (process p d o s3) as [r' s4] eqn:E3.
    injection H as <- <-.
    apply process_frame in E3; [| exact Hf].
    destruct E3 as (-> & E3 & E4 & _).
    simpl in *.
    split; [lia | split].
    + intros i Hi; rewrite E4 by congruence; rewrite E2, E1; reflexivity.
    + intros n Hn; injection Hn as <-; split; congruence.
Qed.

Lemma instance_call_frame {V W : Type} (p : @Processor V W) (s s' : St V W) (r : result nat) :
  fills_write_only_frag p -> instance_call p s r s' ->
  next s <= next s' /\ (forall i, i <> next s -> hp s' i = hp s i) /\
  (forall n, r = Ok n -> n = next s /\ next s' = S (next s)).
Proof.
  intros Hp [(d & o & H) | (data & options & H)].
  - destruct (process_frame p d o s s' r (proj1 Hp) H) as (-> & H2 & H3 & _).
    split; [lia | split; [exact H3 | intros n Hn; injection Hn as <-; split; auto]].
  - destruct (processAsync_frame p data options s s' r Hp H) as (H1 & H2 & H3).
    split; [lia | split; assumption].
Qed.

(** C8: when the fill functions of [p] write only to the fragment they
    are given, and the object holding [p]'s template is allocated, every
    call of [process] or [processAsync] leaves every existing object (the
    one holding the template in particular) as it was; [process] returns
    the fresh object [next s] ([processAsync] too when it fulfils), which
    is not the template's holder, and holds the fill's result on a clone
    of the template content; and of two successive calls the second
    returns another fragment and leaves the first one and the template
    unchanged. *)
Theorem instance_methods_fresh_clone {V W : Type} (p : @Processor V W) :
  fills_write_only_frag p ->
  (forall d o (s s' : St V W) r,
     fst (_TEMPLATE p) < next s ->
     process p d o s = (r, s') ->
     r = Ok (next s) /\ next s <> fst (_TEMPLATE p) /\
     (forall i, i < next s -> hp s' i = hp s i) /\
     tmpl_content (hp s') (_TEMPLATE p) = tmpl_content (hp s) (_TEMPLATE p) /\
     hp s' (next s) = _INSTRUCTIONS p (next s) d (default_options o [])
                        (upd (hp s) (next s) (clone_obj (hp s) (_TEMPLATE p))) (next s)) /\
  (forall data options (s s' : St V W) r,
     fst (_TEMPLATE p) < next s ->
     processAsync p data options s = (r, s') ->
     (forall i, i < next s -> hp s' i = hp s i) /\
     tmpl_content (hp s') (_TEMPLATE p) = tmpl_content (hp s) (_TEMPLATE p) /\
     (forall n, r = Ok n -> n = next s /\ n <> fst (_TEMPLATE p))) /\
  (forall (s s1 s2 : St V W) n1 n2,
     fst (_TEMPLATE p) < next s ->
     instance_call p s (Ok n1) s1 -> instance_call p s1 (Ok n2) s2 ->
     n1 <> n2 /\ hp s2 n1 = hp s1 n1 /\
     tmpl_content (hp s2) (_TEMPLATE p) = tmpl_content (hp s) (_TEMPLATE p)).
Proof.
  intro Hp; split; [| split].
  - intros d o s s' r Hlt H.
    destruct (process_frame p d o s s' r (proj1 Hp) H) as (H1 & _ & H3 & H4).
    split; [exact H1 | split; [lia | split; [| split; [| exact H4]]]].
    + intros i Hi; apply H3; lia.
    + unfold tmpl_content; rewrite H3 by lia; reflexivity.
  - intros data options s s' r Hlt H.
    destruct (processAsync_frame p data options s s' r Hp H) as (_ & H2 & H3).
    split; [intros i Hi; apply H2; lia | split].
    + unfold tmpl_content; rewrite H2 by lia; reflexivity.
    + intros n Hn; destruct (H3 n Hn) as [-> _]; split; [reflexivity | lia].
  - intros s s1 s2 n1 n2 Hlt H1 H2.
    destruct (instance_call_frame p s s1 _ Hp H1) as (A1 & B1 & C1).
    destruct (instance_call_frame p s1 s2 _ Hp H2) as (A2 & B2 & C2).
    destruct (C1 n1 eq_refl) as [-> E1]; destruct (C2 n2 eq_refl) as [-> E2].
    split; [lia | split; [apply B2; lia |]].
    unfold tmpl_content; rewrite B2 by lia; rewrite B1 by lia; reflexivity.
Qed.

Lemma instance_methods_fresh_clone_witness :
  fills_write_only_frag (ol_processor None) /\
  process (ol_processor None) 1 None ol_state
  = (Ok 1, mkSt (upd (hp ol_state) 1 (mkObj "#document-fragment" [Elem "li" [] []]))
                2 0 [ECall 1 1 [] 0]) /\
  (forall i, i < 1 ->
     hp (snd (process (ol_processor None) 1 None ol_state)) i = hp ol_state i).
Proof.
  assert (Hp : fills_write_only_frag (ol_processor None)).
  { split; [intros fr d o h i _; reflexivity | intros ia H; discriminate H]. }
  split; [exact Hp | split; [reflexivity |]].
  destruct (proj1 (instance_methods_fresh_clone (ol_processor None) Hp) 1 None ol_state
              (snd (process (ol_processor None) 1 None ol_state)) (Ok 1) (le_n 1) eq_refl)
    as (_ & _ & H & _).
  exact H.
Defined.

(** ** Populating a list *)

Lemma empty_frags_other (frags : list nat) (h : heap) (i : nat) :
  ~ In i frags ->
  fold_left (fun h' f => upd h' f (mkObj (otag (h' f)) [])) frags h i = h i.
Proof.
  revert h; induction frags as [| f frags IH]; intros h Hn; simpl; [reflexivity |].
  rewrite IH by (intro; apply Hn; right; assumption).
  apply upd_other; intro E; apply Hn; left; congruence.
Qed.

Section PopulateList.
Context {V W : Type}.
Variable instructions : @ProcessingFunction V W.
Hypothesis Hwrite : writes_only_frag instructions.
Hypothesis Hread : reads_only_frag instructions.
Variable list_el : nat.
Variable tp : path.
Variable options : option (jsobject W).

Let pr : @Processor V W := mkProcessor (list_el, tp) instructions None.

Lemma mapM_process (ds : list V) (st : St V W) :
  list_el < next st ->
  exists st',
    mapM (fun data => process pr data options) ds st = (Ok (seq (next st) (length ds)), st') /\
    next st' = next st + length ds /\ now st' = now st /\
    (forall i, i < next st -> hp st' i = hp st i) /\
    flat_map (fun f => okids (hp st' f)) (seq (next st) (length ds))
    = filled_from instructions (next st) ds (default_options options [])
                  (tmpl_content (hp st) (list_el, tp)).
Proof.
  revert st; induction ds as [| d ds IH]; intros st Hlt.
  - exists st; simpl; repeat split; auto; lia.
  - destruct (process pr d options st) as [r1 st1] eqn:E1.
    assert (Tm : now st1 = now st).
    { pose proof E1 as E1'.
      unfold process, bind, clone_content, process_static in E1'; simpl in E1'.
      injection E1' as _ <-; reflexivity. }
    destruct (process_frame pr d options st st1 r1 Hwrite E1) as (-> & N1 & F1 & C1).
    destruct (IH st1 ltac:(lia)) as (st' & E2 & N2 & T2 & F2 & C2).
    exists st'; cbn [mapM]; rewrite E1, E2, N1.
    cbn [length]; split; [reflexivity | split; [lia | split; [congruence | split]]].
    + intros i Hi; rewrite F2 by lia; apply F1; lia.
    + assert (Hc : tmpl_content (hp st1) (list_el, tp) = tmpl_content (hp st) (list_el, tp)).
      { unfold tmpl_content; simpl; rewrite F1 by lia; reflexivity. }
      rewrite Hc, N1 in C2; cbn [flat_map filled_from seq]; rewrite C2; f_equal.
      rewrite F2 by lia; rewrite C1.
      unfold fill_clone; f_equal; apply Hread.
      rewrite !upd_same; reflexivity.
Qed.

Lemma populateList_ok (dataset : list V) (s : St V W) :
  list_el < next s ->
  checkDOM (otag (hp s list_el)) (okids (hp s list_el)) = Ok tp ->
  exists s',
    populateList list_el instructions dataset options s = (Ok tt, s') /\
    hp s' list_el =
      mkObj (otag (hp s list_el))
            (okids (hp s list_el) ++
             filled_from instructions (next s) dataset (default_options options [])
                         (tmpl_content (hp s) (list_el, tp))) /\
    (forall i, i < next s -> i <> list_el -> hp s' i = hp s i).
Proof.
  intros Hlt Hc.
  destruct (mapM_process dataset s Hlt) as (st' & E & N & T & F & C).
  unfold populateList, bind at 1, read_obj.
  unfold bind at 1; rewrite Hc; simpl.
  unfold bind at 1; fold pr; rewrite E.
  unfold append; eexists; split; [reflexivity | split].
  - simpl; rewrite upd_same, C, F by exact Hlt; reflexivity.
  - intros i Hi Hne; simpl.
    rewrite upd_other by exact Hne.
    rewrite empty_frags_other by (rewrite in_seq; lia).
    apply F; exact Hi.
Qed.


(** C6 (as amended): with a fill function that reads and writes only the
    fragment it is given, and a container (an allocated object) whose
    template passes [checkDOM], [populateList] keeps the container's
    existing child nodes, in place and unchanged, and appends after them
    the child nodes of the filled clones of the template content, one
    clone per record, in dataset order; no other existing object changes. *)
Theorem populateList_appends_filled_clones (dataset : list V) (s : St V W) :
  list_el < next s ->
  checkDOM (otag (hp s list_el)) (okids (hp s list_el)) = Ok tp ->
  exists s',
    populateList list_el instructions dataset options s = (Ok tt, s') /\
    hp s' list_el =
      mkObj (otag (hp s list_el))
            (okids (hp s list_el) ++
             filled_from instructions (next s) dataset (default_options options [])
                         (tmpl_content (hp s) (list_el, tp))) /\
    (forall i, i < next s -> i <> list_el -> hp s' i = hp s i).
Proof. exact (populateList_ok dataset s). Qed.

End PopulateList.

Definition dl_state : St nat nat :=
  mkSt (upd (fun _ => mkObj "" []) 0
          (mkObj "DL" [Elem "template" [] [Elem "dt" [] []; Elem "dd" [] []]]))
       1 0 [].

(** C6 (counterexample): a dl container populated with a dataset of one
    record gains two element children, a dt and a dd, not one. *)
Lemma populateList_dl_adds_two_per_record :
  let (r, s') := populateList 0 (fun _ _ _ h => h) [7] None dl_state in
  r = Ok tt /\
  children (okids (hp s' 0))
  = (children (okids (hp dl_state 0)) ++ [Elem "dt" [] []; Elem "dd" [] []])%list.
Proof. vm_compute; split; reflexivity. Qed.

Lemma populateList_appends_filled_clones_witness :
  exists s',
    populateList 0 (fun fr d o h => upd h fr (mkObj "#document-fragment"
                                             (Text "x" :: okids (h fr)))) [1; 2] None ol_state
    = (Ok tt, s') /\
    okids (hp s' 0) = [Elem "template" [] [Elem "li" [] []];
                       Text "x"; Elem "li" [] []; Text "x"; Elem "li" [] []].
Proof.
  assert (Hw : @writes_only_frag nat nat (fun fr d o h => upd h fr (mkObj "#document-fragment"
                                             (Text "x" :: okids (h fr))))).
  { intros fr d o h i Hi; apply upd_other; exact Hi. }
  assert (Hr : @reads_only_frag nat nat (fun fr d o h => upd h fr (mkObj "#document-fragment"
                                             (Text "x" :: okids (h fr))))).
  { intros fr d o h1 h2 E; rewrite !upd_same, E; reflexivity. }
  destruct (populateList_appends_filled_clones _ Hw Hr 0 [0] None [1; 2] ol_state
              (le_n 1) eq_refl) as (s' & E & H & _).
  exists s'; split; [exact E | rewrite H; reflexivity].
Defined.

(** ** Populating a list asynchronously *)

Lemma promise_all_fut_list (fr : nat) (durs : list nat) (T0 : nat) :
  promise_all (fut_list fr durs T0)
  = mkFut (fold_right Nat.max 0 (map (Nat.add T0) durs)) (Ok (seq fr (length durs))).
Proof.
  revert fr; induction durs as [| du durs IH]; intro fr; simpl; [reflexivity |].
  rewrite IH; reflexivity.
Qed.

Section PopulateListAsync.
Local Open Scope list_scope.
Context {V W : Type}.
Variable instructions : @ProcessingFunctionAsync V W.
Hypothesis Hwrite : writes_only_frag_async instructions.
Variable list_el : nat.
Variable tp : path.
Variable options : option (maybe_future (jsobject W)).
Variable o : option (jsobject W).
Hypothesis Ho : opt_fulfils options o.

Let pr : @Processor V W := mkProcessor (list_el, tp) (fun _ _ _ h => h) (Some instructions).

Lemma mapM_spawn (ds : list V) (st : St V W) :
  let T0 := Nat.max (now st) (await_opt_time options) in
  exists st' durs,
    mapM (fun data => spawn (processAsync pr (Plain data) options)) ds st
      = (Ok (fut_list (next st) durs T0), st') /\
    length durs = length ds /\
    next st' = next st + length ds /\ now st' = now st /\
    (forall i, i < next st -> hp st' i = hp st i) /\
    log st' = log st ++ async_log (next st) ds durs (default_options o []) T0.
Proof.
  revert st; induction ds as [| d ds IH]; intros st T0.
  - exists st, []; simpl; rewrite app_nil_r, Nat.add_0_r; repeat split; auto.
  - assert (Hd : fulfils (Plain d) d) by (left; reflexivity).
    pose proof (processAsync_some_eq pr instructions (Plain d) d options o st eq_refl Hd Ho)
      as E1; simpl in E1; rewrite Nat.max_0_r in E1; fold T0 in E1.
    set (h1 := upd (hp st) (next st) (clone_obj (hp st) (_TEMPLATE pr))) in E1.
    set (du := snd (instructions (next st) d (default_options o []) h1)) in E1.
    set (st1 := mkSt (fst (instructions (next st) d (default_options o []) h1))
                     (S (next st)) (now st)
                     (log st ++ [ECallAsync (next st) d (default_options o []) T0;
                                 EFillDone (next st) (T0 + du)])).
    destruct (IH st1) as (st' & durs & E2 & L2 & N2 & T2 & F2 & G2).
    exists st', (du :: durs).
    assert (E1' : spawn (processAsync pr (Plain d) options) st
                  = (Ok (mkFut (T0 + du) (Ok (next st))), st1))
      by (unfold spawn; rewrite E1; reflexivity).
    cbn [mapM]; rewrite E1'; cbv beta iota; rewrite E2; cbv beta iota.
    split; [reflexivity | split; [simpl; lia | split; [simpl in *; lia | split]]].
    + rewrite T2; reflexivity.
    + split.
      * intros i Hi; rewrite F2 by (simpl; lia); simpl.
        rewrite Hwrite by lia; unfold h1; apply upd_other; lia.
      * rewrite G2; simpl; rewrite <- app_assoc; reflexivity.
Qed.

Lemma mapM_spawn_filled (Hread : reads_only_frag_async instructions) (ds : list V)
    (st st' : St V W) (fs : list (future nat)) :
  list_el < next st ->
  mapM (fun data => spawn (processAsync pr (Plain data) options)) ds st = (Ok fs, st') ->
  flat_map (fun f => okids (hp st' f)) (seq (next st) (length ds))
  = filled_from_async instructions (next st) ds (default_options o [])
                      (tmpl_content (hp st) (list_el, tp)).
Proof.
  revert st st' fs; induction ds as [| d ds IH]; intros st st' fs Hlt E; [reflexivity |].
  assert (Hd : fulfils (Plain d) d) by (left; reflexivity).
  pose proof (processAsync_some_eq pr instructions (Plain d) d options o st eq_refl Hd Ho)
    as E1; simpl in E1; rewrite Nat.max_0_r in E1.
  set (T0 := Nat.max (now st) (await_opt_time options)) in E1.
  set (h1 := upd (hp st) (next st) (clone_obj (hp st) (_TEMPLATE pr))) in E1.
  set (du := snd (instructions (next st) d (default_options o []) h1)) in E1.
  set (st1 := mkSt (fst (instructions (next st) d (default_options o []) h1))
                   (S (next st)) (now st)
                   (log st ++ [ECallAsync (next st) d (default_options o []) T0;
                               EFillDone (next st) (T0 + du)])).
  assert (E1' : spawn (processAsync pr (Plain d) options) st
                = (Ok (mkFut (T0 + du) (Ok (next st))), st1))
    by (unfold spawn; rewrite E1; reflexivity).
  cbn [mapM] in E; rewrite E1' in E; cbv beta iota in E.
  destruct (mapM (fun data => spawn (processAsync pr (Plain data) options)) ds st1)
    as [[fs' | e] st''] eqn:E2; [| discriminate].
  injection E as _ <-.
  destruct (mapM_spawn ds st1) as (st3 & durs & E3 & _ & _ & _ & F3 & _).
  rewrite E3 in E2; injection E2 as _ ->.
  assert (Hc : tmpl_content (hp st1) (list_el, tp) = tmpl_content (hp st) (list_el, tp)).
  { unfold tmpl_content; simpl.
    rewrite Hwrite by lia; unfold h1; rewrite upd_other by lia; reflexivity. }
  cbn [seq flat_map length filled_from_async].
  f_equal.
  - rewrite F3 by (simpl; lia); simpl; unfold fill_clone_async; f_equal.
    apply Hread; unfold h1; rewrite !upd_same; reflexivity.
  - rewrite <- Hc; exact (IH st1 _ _ ltac:(simpl; lia) E3).
Qed.

(** C9: for a fill function that reads and writes only its fragment, a
    container whose template passes [checkDOM], a dataset argument
    fulfilling with [ds] and an options argument that fulfils,
    [populateListAsync] awaits the dataset, then calls the fill of every
    record at the same time [T0] (none waits for another's completion),
    each on its own fresh fragment, in dataset order; the container is left
    as it was until the single append, which happens at time [Tend], after
    every fill has completed, and appends after its existing child nodes
    the child nodes of the filled clones, one per record, in dataset order
    (whatever order the fills complete in). *)
Theorem populateListAsync_concurrent_fills (dataset : maybe_future (list V)) (ds : list V)
    (s : St V W) :
  reads_only_frag_async instructions ->
  fulfils dataset ds ->
  list_el < next s ->
  checkDOM (otag (hp s list_el)) (okids (hp s list_el)) = Ok tp ->
  let t1 := Nat.max (now s) (await_time dataset) in
  let T0 := Nat.max t1 (await_opt_time options) in
  exists s' durs,
    populateListAsync list_el instructions dataset options s = (Ok tt, s') /\
    length durs = length ds /\
    let Tend := Nat.max t1 (fold_right Nat.max 0 (map (Nat.add T0) durs)) in
    (forall du, In du durs -> T0 + du <= Tend) /\
    log s' = log s ++ async_log (next s) ds durs (default_options o []) T0
                   ++ [EAppend list_el Tend] /\
    hp s' list_el =
      mkObj (otag (hp s list_el))
            (okids (hp s list_el) ++
             filled_from_async instructions (next s) ds (default_options o [])
                               (tmpl_content (hp s) (list_el, tp))).
Proof.
  intros Hread Hd Hlt Hc t1 T0.
  set (s1 := mkSt (hp s) (next s) t1 (log s)).
  pose proof (await_fulfils dataset ds s Hd) as E1; fold t1 s1 in E1.
  destruct (mapM_spawn ds s1) as (st' & durs & E2 & L2 & N2 & T2 & F2 & G2).
  pose proof (mapM_spawn_filled Hread ds s1 st' _ Hlt E2) as Hfill.
  simpl in E2; fold T0 in E2.
  exists (mkSt (upd (fold_left (fun h' f => upd h' f (mkObj (otag (h' f)) []))
                                (seq (next s) (length ds)) (hp st'))
                     list_el
                     (mkObj (otag (hp st' list_el))
                            (okids (hp st' list_el) ++
                             flat_map (fun f => okids (hp st' f)) (seq (next s) (length ds)))))
               (next st') (Nat.max t1 (fold_right Nat.max 0 (map (Nat.add T0) durs)))
               (log st' ++ [EAppend list_el
                              (Nat.max t1 (fold_right Nat.max 0 (map (Nat.add T0) durs)))])),
         durs.
  unfold populateListAsync, bind at 1, read_obj.
  unfold bind at 1; rewrite Hc; simpl.
  unfold bind at 1; rewrite E1.
  unfold bind at 1; fold pr; rewrite E2.
  unfold bind at 1; simpl; rewrite promise_all_fut_list, T2; simpl.
  rewrite L2.
  split; [reflexivity | split; [reflexivity | ]].
  assert (HF : hp st' list_el = hp s list_el) by (apply F2; exact Hlt).
  split; [| split].
  - intros du Hin.
    assert (T0 + du <= fold_right Nat.max 0 (map (Nat.add T0) durs)).
    { clear -Hin. induction durs as [| x durs IH]; simpl in *; [contradiction |].
      destruct Hin as [-> | Hin]; [lia | specialize (IH Hin); lia]. }
    lia.
  - simpl; rewrite G2, <- app_assoc; reflexivity.
  - simpl; rewrite upd_same, HF; simpl in Hfill; rewrite Hfill; reflexivity.
Qed.

End PopulateListAsync.

Lemma populateListAsync_concurrent_fills_witness :
  exists s',
    populateListAsync 0 (fun (fr d : nat) (_ : jsobject nat) h =>
                           (upd h fr (mkObj "#document-fragment"
                                        (Text (if Nat.eqb d 1 then "one" else "two")
                                         :: okids (h fr))), 3 - d))
      (Prom (mkFut 5 (Ok [1; 2]))) None ol_state = (Ok tt, s') /\
    okids (hp s' 0) = [Elem "template" [] [Elem "li" [] []];
                       Text "one"; Elem "li" [] []; Text "two"; Elem "li" [] []].
Proof.
  assert (Hw : @writes_only_frag_async nat nat
                 (fun fr d _ h => (upd h fr (mkObj "#document-fragment"
                                               (Text (if Nat.eqb d 1 then "one" else "two")
                                                :: okids (h fr))), 3 - d)))
    by (intros fr d o h i Hi; apply upd_other; exact Hi).
  destruct (populateListAsync_concurrent_fills _ Hw 0 [0] None None I
              (Prom (mkFut 5 (Ok [1; 2]))) [1; 2] ol_state)
    as (s' & durs & E & _ & _ & _ & H);
    [intros fr d o h1 h2 Eh; simpl; rewrite !upd_same, Eh; reflexivity
    | right; exists 5; reflexivity | simpl; lia | reflexivity |].
  exists s'; split; [exact E | rewrite H; reflexivity].
Defined.

(** ** Only the first template counts *)

Lemma qs_node_elem (pred : list node -> node -> list node -> bool) t ks c :
  qs_node pred (Elem t ks c) = qs_go pred [] 0 ks.
Proof.
  simpl; generalize (@nil node) at 2 3; generalize 0;
  induction ks as [| x ks IH]; intros i before;
    simpl; [reflexivity |].
  destruct (is_elem x && pred before x ks); [reflexivity |].
  destruct (qs_node pred x) as [[p y] |]; [reflexivity | apply IH].
Qed.

Lemma qs_go_at (pred : list node -> node -> list node -> bool) (ks : list node) :
  Forall (fun x => forall p y, qs_node pred x = Some (p, y) ->
                     exists t ks' c, x = Elem t ks' c /\ node_at ks' p = Some y) ks ->
  forall before i p y, qs_go pred before i ks = Some (p, y) ->
    exists j p', p = (i + j) :: p' /\ node_at ks (j :: p') = Some y.
Proof.
  intros HF; induction HF as [| x ks Hx HF IH]; intros before i p y H;
    simpl in H; [discriminate |].
  destruct (is_elem x && pred before x ks).
  - injection H as <- <-; exists 0, []; split; [f_equal; lia | reflexivity].
  - destruct (qs_node pred x) as [[p0 y0] |] eqn:Hq.
    + injection H as <- <-.
      destruct (Hx p0 y0 eq_refl) as (t & ks' & c & -> & Hn).
      exists 0, p0; split; [f_equal; lia |].
      destruct p0 as [| k p0]; [simpl in Hn; discriminate Hn | exact Hn].
    + destruct (IH _ _ _ _ H) as (j & p' & -> & Hn).
      exists (S j), p'; split; [f_equal; lia | exact Hn].
Qed.

Lemma qs_node_at (pred : list node -> node -> list node -> bool) (n : node) :
  forall p y, qs_node pred n = Some (p, y) ->
    exists t ks c, n = Elem t ks c /\ node_at ks p = Some y.
Proof.
  revert n; apply (node_ind' (fun n => forall p y, qs_node pred n = Some (p, y) ->
                                exists t ks c, n = Elem t ks c /\ node_at ks p = Some y)).
  - intros s p y H; discriminate H.
  - intros t ks c HF p y H; rewrite qs_node_elem in H.
    assert (HF' : Forall (fun x => forall p y, qs_node pred x = Some (p, y) ->
                     exists t ks' c, x = Elem t ks' c /\ node_at ks' p = Some y) ks).
    { eapply Forall_impl; [| exact HF]; intros x Hx; exact Hx. }
    destruct (qs_go_at pred ks HF' _ _ _ _ H) as (j & p' & -> & Hn).
    exists t, ks, c; split; [reflexivity | exact Hn].
Qed.

(** [querySelector] returns the path at which the element it found sits. *)
Lemma querySelector_node_at (pred : list node -> node -> list node -> bool) kids p y :
  querySelector pred kids = Some (p, y) -> node_at kids p = Some y.
Proof.
  intro H; unfold querySelector in H.
  assert (HF : Forall (fun x => forall p y, qs_node pred x = Some (p, y) ->
                 exists t ks' c, x = Elem t ks' c /\ node_at ks' p = Some y) kids).
  { apply Forall_forall; intros x _; apply qs_node_at. }
  destruct (qs_go_at pred kids HF _ _ _ _ H) as (j & p' & -> & Hn); exact Hn.
Qed.

Lemma qs_go_tag_app (t : string) (l1 l2 : list node) :
  forall before i r, qs_go (sel_tag t) before i l1 = Some r ->
    qs_go (sel_tag t) before i (l1 ++ l2)%list = Some r.
Proof.
  induction l1 as [| x l1 IH]; intros before i r H; simpl in *; [discriminate |].
  unfold sel_tag in *.
  destruct (is_elem x && matches t x); [exact H |].
  destruct (qs_node (fun _ x _ => matches t x) x) as [[p y] |]; [exact H | apply IH; exact H].
Qed.

Section PopulateListAsyncFrags.
Local Open Scope list_scope.
Context {V W : Type}.
Variable instructions : @ProcessingFunctionAsync V W.
Hypothesis Hwrite : writes_only_frag_async instructions.
Hypothesis Hread : reads_only_frag_async instructions.
Variable list_el : nat.
Variable tp : path.
Variable options : option (maybe_future (jsobject W)).
Variable o : option (jsobject W).
Hypothesis Ho : opt_fulfils options o.

Let pr : @Processor V W := mkProcessor (list_el, tp) (fun _ _ _ h => h) (Some instructions).

Lemma mapM_spawn_frags (ds : list V) :
  forall st st' r, list_el < next st ->
    mapM (fun data => spawn (processAsync pr (Plain data) options)) ds st = (r, st') ->
    flat_map (fun f => okids (hp st' f)) (seq (next st) (length ds))
    = filled_from_async instructions (next st) ds (default_options o [])
                        (tmpl_content (hp st) (list_el, tp)).
Proof.
  induction ds as [| d ds IH]; intros st st' r Hlt E; [reflexivity |].
  assert (Hd : fulfils (Plain d) d) by (left; reflexivity).
  pose proof (processAsync_some_eq pr instructions (Plain d) d options o st eq_refl Hd Ho)
    as E1; simpl in E1; rewrite Nat.max_0_r in E1.
  set (h1 := upd (hp st) (next st) (clone_obj (hp st) (_TEMPLATE pr))) in E1.
  set (T0 := Nat.max (now st) (await_opt_time options)) in E1.
  set (du := snd (instructions (next st) d (default_options o []) h1)) in E1.
  set (st1 := mkSt (fst (instructions (next st) d (default_options o []) h1))
                   (S (next st)) (now st)
                   (log st ++ [ECallAsync (next st) d (default_options o []) T0;
                               EFillDone (next st) (T0 + du)])).
  assert (E1' : spawn (processAsync pr (Plain d) options) st
                = (Ok (mkFut (T0 + du) (Ok (next st))), st1))
    by (unfold spawn; rewrite E1; reflexivity).
  cbn [mapM] in E; rewrite E1' in E; cbv beta iota in E.
  destruct (mapM (fun data => spawn (processAsync pr (Plain data) options)) ds st1)
    as [r2 st2] eqn:E2.
  assert (Hst : st' = st2) by (destruct r2; injection E as _ <-; reflexivity).
  subst st'.
  pose proof (IH st1 st2 r2 ltac:(simpl; lia) E2) as C2.
  destruct (mapM_spawn instructions Hwrite list_el tp options o Ho ds st1)
    as (st'' & durs & E3 & _ & _ & _ & F3 & _).
  unfold pr in E2; rewrite E2 in E3; injection E3 as _ <-.
  assert (Hfr : hp st2 (next st) = fill_clone_async instructions (next st) d
                                     (default_options o []) (tmpl_content (hp st) (list_el, tp))).
  { rewrite F3 by (simpl; lia); simpl; unfold fill_clone_async; apply Hread.
    unfold h1; rewrite !upd_same; reflexivity. }
  assert (Hc : tmpl_content (hp st1) (list_el, tp) = tmpl_content (hp st) (list_el, tp)).
  { unfold tmpl_content; simpl; rewrite Hwrite by lia; unfold h1; rewrite upd_other by lia;
    reflexivity. }
  rewrite Hc in C2; simpl in C2.
  cbn [length seq flat_map filled_from_async]; rewrite Hfr, C2; reflexivity.
Qed.

Lemma populateListAsync_ok (dataset : maybe_future (list V)) (ds : list V) (s : St V W) :
  fulfils dataset ds ->
  list_el < next s ->
  checkDOM (otag (hp s list_el)) (okids (hp s list_el)) = Ok tp ->
  exists s',
    populateListAsync list_el instructions dataset options s = (Ok tt, s') /\
    hp s' list_el =
      mkObj (otag (hp s list_el))
            (okids (hp s list_el) ++
             filled_from_async instructions (next s) ds (default_options o [])
                               (tmpl_content (hp s) (list_el, tp))).
Proof.
  intros Hd Hlt Hc.
  set (s1 := mkSt (hp s) (next s) (Nat.max (now s) (await_time dataset)) (log s)).
  pose proof (await_fulfils dataset ds s Hd) as E1; fold s1 in E1.
  destruct (mapM_spawn instructions Hwrite list_el tp options o Ho ds s1)
    as (st' & durs & E2 & L2 & N2 & T2 & F2 & G2).
  pose proof (mapM_spawn_frags ds s1 st' _ Hlt E2) as C.
  simpl in E2; eexists.
  unfold populateListAsync, bind at 1, read_obj.
  unfold bind at 1; rewrite Hc; simpl.
  unfold bind at 1; rewrite E1.
  unfold bind at 1; rewrite E2.
  unfold bind at 1; simpl; rewrite promise_all_fut_list, T2; simpl.
  rewrite L2; split; [reflexivity |].
  assert (HF : hp st' list_el = hp s list_el) by (apply F2; exact Hlt).
  simpl; rewrite upd_same, HF.
  simpl in C; rewrite C; reflexivity.
Qed.

End PopulateListAsyncFrags.

Lemma checkDOM_same_first_template (tagName : string) (kids1 kids2 : list node)
    (p : path) (t1 t2 : node) :
  querySelector (sel_tag "template") kids1 = Some (p, t1) ->
  querySelector (sel_tag "template") kids2 = Some (p, t2) ->
  template_content t1 = template_content t2 ->
  checkDOM tagName kids1 = checkDOM tagName kids2.
Proof. intros H1 H2 Ht; unfold checkDOM; rewrite H1, H2, Ht; reflexivity. Qed.

Lemma checkDOM_ok_path (tagName : string) (kids : list node) (p tp : path) (t : node) :
  querySelector (sel_tag "template") kids = Some (p, t) ->
  checkDOM tagName kids = Ok tp -> tp = p.
Proof.
  intros Hq Hc; unfold checkDOM in Hc; rewrite Hq in Hc.
  destruct (check_content _ _); [injection Hc as <-; reflexivity | discriminate].
Qed.

Lemma tmpl_content_first (h : heap) (l : nat) (p : path) (t : node) :
  querySelector (sel_tag "template") (okids (h l)) = Some (p, t) ->
  tmpl_content h (l, p) = template_content t.
Proof.
  intro Hq; unfold tmpl_content; simpl.
  rewrite (querySelector_node_at _ _ _ _ Hq); reflexivity.
Qed.

Lemma populate_checkDOM_err {V W : Type} (list_el : nat) (f : @ProcessingFunction V W)
    (fa : @ProcessingFunctionAsync V W) (ds : list V) (da : maybe_future (list V))
    (o : option (jsobject W)) (oa : option (maybe_future (jsobject W))) (s : St V W) e :
  checkDOM (otag (hp s list_el)) (okids (hp s list_el)) = Err e ->
  populateList list_el f ds o s = (Err e, s) /\
  populateListAsync list_el fa da oa s = (Err e, s).
Proof.
  intro H; unfold populateList, populateListAsync, bind, read_obj, lift_result.
  rewrite H; split; reflexivity.
Qed.

(** C10: only the first [<template>] descendant of the container, in
    document order, is validated and cloned. Two containers whose first
    template descendants sit at the same path and have the same content
    get the same [checkDOM] outcome, however their other descendants
    (later templates included) differ; the templates following the first
    one never change which one [querySelector] finds; and [populateList]
    and [populateListAsync] (with fragment-local fill functions) either
    fail on both containers with the same error or succeed on both and
    append the same child nodes to each. *)
Theorem populate_first_template_only :
  (forall tagName kids1 kids2 p t1 t2,
     querySelector (sel_tag "template") kids1 = Some (p, t1) ->
     querySelector (sel_tag "template") kids2 = Some (p, t2) ->
     template_content t1 = template_content t2 ->
     checkDOM tagName kids1 = checkDOM tagName kids2) /\
  (forall kids rest r,
     querySelector (sel_tag "template") kids = Some r ->
     querySelector (sel_tag "template") (kids ++ rest)%list = Some r) /\
  (forall V W (f : @ProcessingFunction V W) list_el ds options (s1 s2 : St V W) p t1 t2,
     writes_only_frag f -> reads_only_frag f ->
     list_el < next s1 -> next s1 = next s2 ->
     otag (hp s1 list_el) = otag (hp s2 list_el) ->
     querySelector (sel_tag "template") (okids (hp s1 list_el)) = Some (p, t1) ->
     querySelector (sel_tag "template") (okids (hp s2 list_el)) = Some (p, t2) ->
     template_content t1 = template_content t2 ->
     (exists e, populateList list_el f ds options s1 = (Err e, s1) /\
                populateList list_el f ds options s2 = (Err e, s2)) \/
     (exists added s1' s2',
        populateList list_el f ds options s1 = (Ok tt, s1') /\
        populateList list_el f ds options s2 = (Ok tt, s2') /\
        hp s1' list_el = mkObj (otag (hp s1 list_el)) (okids (hp s1 list_el) ++ added)%list /\
        hp s2' list_el = mkObj (otag (hp s2 list_el)) (okids (hp s2 list_el) ++ added)%list)) /\
  (forall V W (f : @ProcessingFunctionAsync V W) list_el dataset ds options o
          (s1 s2 : St V W) p t1 t2,
     writes_only_frag_async f -> reads_only_frag_async f ->
     fulfils dataset ds -> opt_fulfils options o ->
     list_el < next s1 -> next s1 = next s2 ->
     otag (hp s1 list_el) = otag (hp s2 list_el) ->
     querySelector (sel_tag "template") (okids (hp s1 list_el)) = Some (p, t1) ->
     querySelector (sel_tag "template") (okids (hp s2 list_el)) = Some (p, t2) ->
     template_content t1 = template_content t2 ->
     (exists e, populateListAsync list_el f dataset options s1 = (Err e, s1) /\
                populateListAsync list_el f dataset options s2 = (Err e, s2)) \/
     (exists added s1' s2',
        populateListAsync list_el f dataset options s1 = (Ok tt, s1') /\
        populateListAsync list_el f dataset options s2 = (Ok tt, s2') /\
        hp s1' list_el = mkObj (otag (hp s1 list_el)) (okids (hp s1 list_el) ++ added)%list /\
        hp s2' list_el = mkObj (otag (hp s2 list_el)) (okids (hp s2 list_el) ++ added)%list)).
Proof.
  split; [exact checkDOM_same_first_template |].
  split; [intros kids rest r; apply qs_go_tag_app |].
  split.
  - intros V W f list_el ds options s1 s2 p t1 t2 Hw Hr Hlt Hn Ht Hq1 Hq2 Hct.
    assert (Hc : checkDOM (otag (hp s2 list_el)) (okids (hp s2 list_el))
                 = checkDOM (otag (hp s1 list_el)) (okids (hp s1 list_el)))
      by (rewrite Ht; exact (checkDOM_same_first_template _ _ _ p t2 t1 Hq2 Hq1 (eq_sym Hct))).
    destruct (checkDOM (otag (hp s1 list_el)) (okids (hp s1 list_el))) as [tp | e] eqn:Hc1.
    + right.
      pose proof (checkDOM_ok_path _ _ _ _ _ Hq1 Hc1) as ->.
      destruct (populateList_ok f Hw Hr list_el p options ds s1 Hlt Hc1) as (s1' & E1 & C1 & _).
      destruct (populateList_ok f Hw Hr list_el p options ds s2 ltac:(lia) Hc)
        as (s2' & E2 & C2 & _).
      rewrite (tmpl_content_first _ _ _ _ Hq1) in C1.
      rewrite (tmpl_content_first _ _ _ _ Hq2), <- Hn, <- Hct in C2.
      eexists; exists s1', s2'; split; [exact E1 | split; [exact E2 | split; eassumption]].
    + left; exists e; split.
      * exact (proj1 (populate_checkDOM_err list_el f (fun _ _ _ h => (h, 0)) ds (Plain ds)
                        options None s1 e Hc1)).
      * exact (proj1 (populate_checkDOM_err list_el f (fun _ _ _ h => (h, 0)) ds (Plain ds)
                        options None s2 e Hc)).
  - intros V W f list_el dataset ds options o s1 s2 p t1 t2 Hw Hr Hd Ho Hlt Hn Ht Hq1 Hq2 Hct.
    assert (Hc : checkDOM (otag (hp s2 list_el)) (okids (hp s2 list_el))
                 = checkDOM (otag (hp s1 list_el)) (okids (hp s1 list_el)))
      by (rewrite Ht; exact (checkDOM_same_first_template _ _ _ p t2 t1 Hq2 Hq1 (eq_sym Hct))).
    destruct (checkDOM (otag (hp s1 list_el)) (okids (hp s1 list_el))) as [tp | e] eqn:Hc1.
    + right.
      pose proof (checkDOM_ok_path _ _ _ _ _ Hq1 Hc1) as ->.
      destruct (populateListAsync_ok f Hw Hr list_el p options o Ho dataset ds s1 Hd Hlt Hc1)
        as (s1' & E1 & C1).
      destruct (populateListAsync_ok f Hw Hr list_el p options o Ho dataset ds s2 Hd
                  ltac:(lia) Hc) as (s2' & E2 & C2).
      rewrite (tmpl_content_first _ _ _ _ Hq1) in C1.
      rewrite (tmpl_content_first _ _ _ _ Hq2), <- Hn, <- Hct in C2.
      eexists; exists s1', s2'; split; [exact E1 | split; [exact E2 | split; eassumption]].
    + left; exists e; split.
      * exact (proj2 (populate_checkDOM_err list_el (fun _ _ _ h => h) f [] dataset
                        None options s1 e Hc1)).
      * exact (proj2 (populate_checkDOM_err list_el (fun _ _ _ h => h) f [] dataset
                        None options s2 e Hc)).
Qed.

(** An [<ol>] whose first template holds one [<li>], followed by a second
    template holding a [<span>] and by a [<div>] holding a third, empty,
    template. *)
Definition ol_three_templates_state : St nat nat :=
  mkSt (upd (fun _ => mkObj "" []) 0
          (mkObj "OL" [Elem "template" [] [Elem "li" [] []];
                       Elem "template" [] [Elem "span" [] []];
                       Elem "div" [Elem "template" [] []] []]))
       1 0 [].

Lemma populate_first_template_only_witness :
  (exists added s1' s2',
     populateList 0 (fun _ _ _ h => h) [1; 2] None ol_three_templates_state = (Ok tt, s1') /\
     populateList 0 (fun _ _ _ h => h) [1; 2] None ol_state = (Ok tt, s2') /\
     hp s1' 0 = mkObj "OL" (okids (hp ol_three_templates_state 0) ++ added)%list /\
     hp s2' 0 = mkObj "OL" (okids (hp ol_state 0) ++ added)%list) /\
  (exists added s1' s2',
     populateListAsync 0 (fun (fr : nat) (d : nat) (_ : jsobject nat) h => (h, d))
       (Prom (mkFut 5 (Ok [1; 2]))) None ol_three_templates_state = (Ok tt, s1') /\
     populateListAsync 0 (fun (fr : nat) (d : nat) (_ : jsobject nat) h => (h, d))
       (Prom (mkFut 5 (Ok [1; 2]))) None ol_state = (Ok tt, s2') /\
     hp s1' 0 = mkObj "OL" (okids (hp ol_three_templates_state 0) ++ added)%list /\
     hp s2' 0 = mkObj "OL" (okids (hp ol_state 0) ++ added)%list).
Proof.
  assert (Hw : @writes_only_frag nat nat (fun _ _ _ h => h)) by (intros fr d o h i _; reflexivity).
  assert (Hr : @reads_only_frag nat nat (fun _ _ _ h => h)) by (intros fr d o h1 h2 E; exact E).
  assert (Hwa : @writes_only_frag_async nat nat (fun fr d _ h => (h, d)))
    by (intros fr d o h i _; reflexivity).
  assert (Hra : @reads_only_frag_async nat nat (fun fr d _ h => (h, d)))
    by (intros fr d o h1 h2 E; exact E).
  destruct populate_first_template_only as (_ & _ & Hs & Ha); split.
  - destruct (Hs nat nat _ 0 [1; 2] None ol_three_templates_state ol_state [0]
                 (Elem "template" [] [Elem "li" [] []]) (Elem "template" [] [Elem "li" [] []])
                 Hw Hr (le_n 1) eq_refl eq_refl eq_refl eq_refl eq_refl)
      as [(e & E1 & _) | H]; [vm_compute in E1; discriminate E1 | exact H].
  - destruct (Ha nat nat _ 0 (Prom (mkFut 5 (Ok [1; 2]))) [1; 2] None None
                 ol_three_templates_state ol_state [0]
                 (Elem "template" [] [Elem "li" [] []]) (Elem "template" [] [Elem "li" [] []])
                 Hwa Hra (or_intror (ex_intro _ 5 eq_refl)) I (le_n 1) eq_refl eq_refl
                 eq_refl eq_refl eq_refl)
      as [(e & E1 & _) | H]; [vm_compute in E1; discriminate E1 | exact H].
Defined.

(** * Further properties of the code *)

(** ** [checkDOM] *)

Lemma qs_go_sat (pred : list node -> node -> list node -> bool) (ks : list node) :
  Forall (fun x => forall p y, qs_node pred x = Some (p, y) ->
                     exists b r, is_elem y && pred b y r = true) ks ->
  forall before i p y, qs_go pred before i ks = Some (p, y) ->
    exists b r, is_elem y && pred b y r = true.
Proof.
  intros HF; induction HF as [| x ks Hx HF IH]; intros before i p y H;
    simpl in H; [discriminate |].
  destruct (is_elem x && pred before x ks) eqn:Hp.
  - injection H as _ <-; eauto.
  - destruct (qs_node pred x) as [[p0 y0] |] eqn:Hq.
    + injection H as _ <-; exact (Hx p0 y0 eq_refl).
    + exact (IH _ _ _ _ H).
Qed.

Lemma qs_node_sat (pred : list node -> node -> list node -> bool) (n : node) :
  forall p y, qs_node pred n = Some (p, y) -> exists b r, is_elem y && pred b y r = true.
Proof.
  revert n; apply (node_ind' (fun n => forall p y, qs_node pred n = Some (p, y) ->
                                exists b r, is_elem y && pred b y r = true)).
  - intros s p y H; discriminate H.
  - intros t ks c HF p y H; rewrite qs_node_elem in H.
    exact (qs_go_sat pred ks HF _ _ _ _ H).
Qed.

(** What [querySelector] finds is an element satisfying the selector. *)
Lemma querySelector_sat (pred : list node -> node -> list node -> bool) kids p y :
  querySelector pred kids = Some (p, y) -> exists b r, is_elem y && pred b y r = true.
Proof.
  intro H; unfold querySelector in H; apply (qs_go_sat pred kids) with [] 0 p; [| exact H].
  apply Forall_forall; intros x _; apply qs_node_sat.
Qed.

Lemma node_at_desc (p : path) :
  forall l y, node_at l p = Some y -> is_elem y = true -> In y (descendants l).
Proof.
  induction p as [| i p IH]; intros l y H He; simpl in H; [discriminate |].
  destruct (nth_error l i) as [x |] eqn:Hx; [| discriminate].
  unfold descendants; apply in_flat_map; exists x; split; [exact (nth_error_In _ _ Hx) |].
  destruct p as [| k p].
  - injection H as ->; destruct y; [discriminate | left; reflexivity].
  - destruct x as [s | t ks c]; [discriminate |].
    right; exact (IH ks y H He).
Qed.

Lemma querySelector_desc (pred : list node -> node -> list node -> bool) kids p y :
  querySelector pred kids = Some (p, y) -> In y (descendants kids).
Proof.
  intro H; apply (node_at_desc p); [exact (querySelector_node_at _ _ _ _ H) |].
  destruct (querySelector_sat _ _ _ _ H) as (b & r & Hb).
  apply andb_prop in Hb; tauto.
Qed.

Lemma lower_ascii_idem (c : ascii) : lower_ascii (lower_ascii c) = lower_ascii c.
Proof.
  unfold lower_ascii at 2 3.
  destruct ((65 <=? nat_of_ascii c) && (nat_of_ascii c <=? 90))%nat eqn:H.
  - apply andb_prop in H; destruct H as [H1 H2];
      apply Nat.leb_le in H1, H2.
    unfold lower_ascii; rewrite nat_ascii_embedding by lia.
    replace ((65 <=? nat_of_ascii c + 32) && (nat_of_ascii c + 32 <=? 90))%nat with false;
      [reflexivity |].
    symmetry; apply andb_false_intro2; apply Nat.leb_gt; lia.
  - unfold lower_ascii; rewrite H; reflexivity.
Qed.

Lemma toLowerCase_idem (s : string) : toLowerCase (toLowerCase s) = toLowerCase s.
Proof.
  induction s as [| c s IH]; simpl; [reflexivity |]; rewrite lower_ascii_idem, IH; reflexivity.
Qed.

Lemma map_get_In (m : list (string * string)) (k v : string) :
  map_get m k = Some v -> In (k, v) m.
Proof.
  induction m as [| [k' v'] m IH]; simpl; [discriminate |].
  destruct (String.eqb k k') eqn:E.
  - apply String.eqb_eq in E; subst; intro H; injection H as ->; left; reflexivity.
  - intro H; right; exact (IH H).
Qed.

Lemma checkDOM_ok_inv (tagName : string) (kids : list node) (p : path) :
  checkDOM tagName kids = Ok p ->
  exists t, querySelector (sel_tag "template") kids = Some (p, t) /\
            node_at kids p = Some t /\ is_template t = true /\
            check_content (toLowerCase tagName) (template_content t) = Ok tt.
Proof.
  unfold checkDOM.
  destruct (querySelector (sel_tag "template") kids) as [[p0 t] |] eqn:Hq; [| discriminate].
  destruct (check_content (toLowerCase tagName) (template_content t)) as [[] | e] eqn:Hc;
    [| discriminate].
  intro H; injection H as <-; exists t.
  split; [reflexivity | split; [exact (querySelector_node_at _ _ _ _ Hq) | split; [| exact Hc]]].
  destruct (querySelector_sat _ _ _ _ Hq) as (b & r & Hb).
  apply andb_prop in Hb; exact (proj2 Hb).
Qed.

Lemma check_content_ok_key (ltag : string) (content : list node) :
  check_content ltag content = Ok tt -> In ltag (map fst child_tagname_map).
Proof.
  unfold check_content, child_tagname.
  destruct (map_get child_tagname_map ltag) as [v |] eqn:Hm; [| discriminate].
  intros _; apply map_get_In in Hm.
  apply in_map_iff; exists (ltag, v); split; [reflexivity | exact Hm].
Qed.

(** X2: [checkDOM] treats tag names case-insensitively: a container with
    tag name [tagName] gets the same outcome (accepted template, or the
    same error and message) as one whose tag name is its lower-case form. *)
Theorem checkDOM_case_insensitive (tagName : string) (kids : list node) :
  checkDOM (toLowerCase tagName) kids = checkDOM tagName kids.
Proof. unfold checkDOM; rewrite toLowerCase_idem; reflexivity. Qed.

(** X3: [checkDOM] accepts a container only when its lower-cased tag name
    is one of the keys [ol], [ul], [table], [thead], [tbody], [tfoot],
    [tr], [dl] of its table. *)
Theorem checkDOM_ok_supported_tag (tagName : string) (kids : list node) (p : path) :
  checkDOM tagName kids = Ok p ->
  In (toLowerCase tagName) ["ol"; "ul"; "table"; "thead"; "tbody"; "tfoot"; "tr"; "dl"].
Proof.
  intro H; destruct (checkDOM_ok_inv _ _ _ H) as (t & _ & _ & _ & Hc).
  exact (check_content_ok_key _ _ Hc).
Qed.

Lemma checkDOM_ok_supported_tag_witness :
  In (toLowerCase "Table") ["ol"; "ul"; "table"; "thead"; "tbody"; "tfoot"; "tr"; "dl"].
Proof.
  apply (checkDOM_ok_supported_tag "Table"
           [Elem "template" [] [Elem "tbody" [] []]] [0]); reflexivity.
Defined.

(** X4: when [checkDOM] accepts a [<dl>], the template it returns has at
    least two element children, every element in its content is a [<dt>]
    or a [<dd>], and the content holds at least one [<dt>] and at least one
    [<dd>] element. *)
Theorem checkDOM_dl_accepted_shape (tagName : string) (kids : list node) (p : path) :
  toLowerCase tagName = "dl" ->
  checkDOM tagName kids = Ok p ->
  exists t, node_at kids p = Some t /\
    2 <= length (children (template_content t)) /\
    forallb (fun el => matches "dt" el || matches "dd" el)
            (descendants (template_content t)) = true /\
    (exists x, In x (descendants (template_content t)) /\ matches "dt" x = true) /\
    (exists y, In y (descendants (template_content t)) /\ matches "dd" y = true).
Proof.
  intros Hdl H; destruct (checkDOM_ok_inv _ _ _ H) as (t & _ & Hn & _ & Hc).
  exists t; split; [exact Hn |].
  rewrite Hdl in Hc; unfold check_content in Hc; simpl in Hc.
  set (c := template_content t) in *.
  destruct (length (children c) <? 2)%nat eqn:H2; [discriminate |].
  destruct (querySelector (sel_tag "dt") c) as [[p1 x] |] eqn:Hx; [| discriminate].
  destruct (querySelector (sel_tag "dd") c) as [[p2 y] |] eqn:Hy; [| discriminate].
  destruct (existsb (fun el => negb (matches "dt" el || matches "dd" el)) (descendants c))
    eqn:He; [discriminate |].
  split; [apply Nat.ltb_ge; exact H2 | split; [| split]].
  - apply forallb_forall; intros el Hel.
    destruct (matches "dt" el || matches "dd" el) eqn:Hm; [reflexivity |].
    assert (existsb (fun el => negb (matches "dt" el || matches "dd" el)) (descendants c) = true)
      by (apply existsb_exists; exists el; rewrite Hm; split; [exact Hel | reflexivity]).
    congruence.
  - exists x; split; [exact (querySelector_desc _ _ _ _ Hx) |].
    destruct (querySelector_sat _ _ _ _ Hx) as (b & r & Hb); apply andb_prop in Hb; exact (proj2 Hb).
  - exists y; split; [exact (querySelector_desc _ _ _ _ Hy) |].
    destruct (querySelector_sat _ _ _ _ Hy) as (b & r & Hb); apply andb_prop in Hb; exact (proj2 Hb).
Qed.

Lemma checkDOM_dl_accepted_shape_witness :
  exists t, node_at (okids (hp dl_state 0)) [0] = Some t /\
    2 <= length (children (template_content t)) /\
    forallb (fun el => matches "dt" el || matches "dd" el)
            (descendants (template_content t)) = true /\
    (exists x, In x (descendants (template_content t)) /\ matches "dt" x = true) /\
    (exists y, In y (descendants (template_content t)) /\ matches "dd" y = true).
Proof.
  apply (checkDOM_dl_accepted_shape "DL" (okids (hp dl_state 0)) [0]); reflexivity.
Defined.

(** ** Populating with an empty or a rejected dataset *)

(** X5: with an empty dataset and a container whose template passes
    [checkDOM], [populateList] and [populateListAsync] succeed without
    changing any object or allocating any fragment; they only log the
    (empty) append. [populateListAsync] resumes when the dataset settles
    and never awaits the options, so even a rejecting options promise does
    not make it fail. *)
Theorem populateList_empty_dataset {V W : Type} (list_el : nat) (tp : path)
    (f : @ProcessingFunction V W) (fa : @ProcessingFunctionAsync V W)
    (options : option (jsobject W)) (options_a : option (maybe_future (jsobject W)))
    (dataset : maybe_future (list V)) (s : St V W) :
  checkDOM (otag (hp s list_el)) (okids (hp s list_el)) = Ok tp ->
  fulfils dataset [] ->
  (exists s', populateList list_el f [] options s = (Ok tt, s') /\
              (forall i, hp s' i = hp s i) /\ next s' = next s /\ now s' = now s /\
              log s' = (log s ++ [EAppend list_el (now s)])%list) /\
  (exists s', populateListAsync list_el fa dataset options_a s = (Ok tt, s') /\
              (forall i, hp s' i = hp s i) /\ next s' = next s /\
              now s' = Nat.max (now s) (await_time dataset) /\
              log s' = (log s ++ [EAppend list_el (now s')])%list).
Proof.
  intros Hc Hd.
  assert (Hu : forall (h : heap) i,
             upd h list_el (mkObj (otag (h list_el)) (okids (h list_el) ++ [])%list) i = h i).
  { intros h i; unfold upd; destruct (Nat.eqb i list_el) eqn:E; [| reflexivity].
    apply Nat.eqb_eq in E; subst; rewrite app_nil_r; destruct (h list_el); reflexivity. }
  split.
  - unfold populateList, bind, read_obj, lift_result; rewrite Hc; simpl.
    eexists; split; [reflexivity |]; simpl.
    split; [apply Hu | repeat split].
  - pose proof (await_fulfils dataset [] s Hd) as E1.
    unfold populateListAsync, bind at 1, read_obj.
    unfold bind at 1; rewrite Hc; simpl.
    unfold bind at 1; rewrite E1; simpl.
    eexists; split; [reflexivity |]; simpl.
    rewrite Nat.max_0_r; split; [apply Hu | repeat split].
Qed.

Lemma populateList_empty_dataset_witness :
  (exists s', populateList 0 (fun _ _ _ h => h) [] None ol_state = (Ok tt, s') /\
              log s' = [EAppend 0 0]) /\
  (exists s', populateListAsync 0 (fun fr d _ h => (h, d)) (Prom (mkFut 3 (Ok [])))
                (Some (Prom (mkFut 5 (Err (Rejection "x"))))) ol_state = (Ok tt, s') /\
              now s' = 3 /\ log s' = [EAppend 0 3]).
Proof.
  destruct (@populateList_empty_dataset nat nat 0 [0] (fun _ _ _ h => h)
              (fun fr d _ h => (h, d)) None (Some (Prom (mkFut 5 (Err (Rejection "x")))))
              (Prom (mkFut 3 (Ok []))) ol_state)
    as [(s1 & E1 & _ & _ & _ & L1) (s2 & E2 & _ & _ & N2 & L2)];
    [reflexivity | right; exists 3; reflexivity |].
  split.
  - exists s1; split; [exact E1 | rewrite L1; reflexivity].
  - exists s2; split; [exact E2 | rewrite L2, N2; split; reflexivity].
Defined.

(** X6: when the dataset promise rejects, [populateListAsync] (on a
    container whose template passes [checkDOM]) rejects with the same
    reason when it settles, having allocated no fragment, called no fill
    function and changed no object. *)
Theorem populateListAsync_dataset_rejected {V W : Type} (list_el : nat) (tp : path)
    (fa : @ProcessingFunctionAsync V W) (dataset : maybe_future (list V))
    (options : option (maybe_future (jsobject W))) (e : error) (s : St V W) :
  checkDOM (otag (hp s list_el)) (okids (hp s list_el)) = Ok tp ->
  rejects dataset e ->
  populateListAsync list_el fa dataset options s
  = (Err e, mkSt (hp s) (next s) (Nat.max (now s) (await_time dataset)) (log s)).
Proof.
  intros Hc (t & ->).
  unfold populateListAsync, bind, read_obj, lift_result; rewrite Hc; reflexivity.
Qed.

Lemma populateListAsync_dataset_rejected_witness :
  populateListAsync 0 (fun (fr d : nat) (_ : jsobject nat) h => (h, d))
    (Prom (mkFut 5 (Err (Rejection "x")))) None ol_state
  = (Err (Rejection "x"), mkSt (hp ol_state) 1 5 []).
Proof.
  rewrite (populateListAsync_dataset_rejected 0 [0] _ _ None (Rejection "x") ol_state);
    [reflexivity | reflexivity | exists 5; reflexivity].
Defined.

Lemma promise_all_rejected_all {A : Type} (fs : list (future A)) (e : error) :
  fs <> [] -> Forall (fun f => outcome f = Err e) fs -> outcome (promise_all fs) = Err e.
Proof.
  induction fs as [| f fs IH]; intros Hne HF; [congruence |].
  inversion HF as [| ? ? Hf HF']; subst.
  simpl; unfold all_step; rewrite Hf.
  destruct fs as [| g fs].
  - reflexivity.
  - rewrite (IH ltac:(discriminate) HF'); destruct (Nat.leb _ _); reflexivity.
Qed.

Lemma mapM_spawn_options_rejected {V W : Type} (fa : @ProcessingFunctionAsync V W)
    (list_el : nat) (tp : path) (oa : maybe_future (jsobject W)) (e : error) (ds : list V) :
  rejects oa e ->
  forall st, exists st' futs,
    mapM (fun data => spawn (processAsync (mkProcessor (list_el, tp) (fun _ _ _ h => h) (Some fa))
                                          (Plain data) (Some oa))) ds st = (Ok futs, st') /\
    length futs = length ds /\ Forall (fun f => outcome f = Err e) futs /\
    log st' = log st /\ next st' = next st + length ds /\ now st' = now st /\
    (forall i, i < next st -> hp st' i = hp st i).
Proof.
  intros (t & ->); induction ds as [| d ds IH]; intro st.
  - exists st, []; simpl; repeat split; auto; lia.
  - set (st1 := mkSt (upd (hp st) (next st)
                           (mkObj "#document-fragment" (tmpl_content (hp st) (list_el, tp))))
                     (S (next st)) (now st) (log st)).
    destruct (IH st1) as (st' & futs & E & L & F & G & N & T & H).
    exists st', (mkFut (Nat.max (now st) t) (Err e) :: futs).
    cbn [mapM]; unfold spawn at 1; simpl; fold st1; rewrite E.
    split; [reflexivity |]; simpl in *.
    split; [lia | split; [constructor; [reflexivity | exact F] | split; [exact G |]]].
    split; [lia | split; [exact T |]].
    intros i Hi; rewrite H by lia; apply upd_other; lia.
Qed.

(** X7: when the options promise rejects and the dataset is non-empty,
    [populateListAsync] (on a container whose template passes [checkDOM])
    rejects with the same reason: every record's [processAsync] rejects
    before calling the fill function, so no fill is called and nothing is
    appended; no existing object, the container included, changes. *)
Theorem populateListAsync_options_rejected {V W : Type} (list_el : nat) (tp : path)
    (fa : @ProcessingFunctionAsync V W) (dataset : maybe_future (list V)) (ds : list V)
    (oa : maybe_future (jsobject W)) (e : error) (s : St V W) :
  checkDOM (otag (hp s list_el)) (okids (hp s list_el)) = Ok tp ->
  fulfils dataset ds -> ds <> [] -> rejects oa e ->
  exists s', populateListAsync list_el fa dataset (Some oa) s = (Err e, s') /\
             log s' = log s /\ (forall i, i < next s -> hp s' i = hp s i).
Proof.
  intros Hc Hd Hne Hr.
  set (s1 := mkSt (hp s) (next s) (Nat.max (now s) (await_time dataset)) (log s)).
  pose proof (await_fulfils dataset ds s Hd) as E1; fold s1 in E1.
  destruct (mapM_spawn_options_rejected fa list_el tp oa e ds Hr s1)
    as (st' & futs & E & L & F & G & N & T & H).
  assert (Hf : futs <> []) by (destruct futs, ds; simpl in L; congruence).
  pose proof (promise_all_rejected_all futs e Hf F) as Ho.
  unfold populateListAsync, bind at 1, read_obj.
  unfold bind at 1; rewrite Hc; simpl.
  unfold bind at 1; rewrite E1.
  unfold bind at 1; rewrite E.
  unfold bind at 1; simpl; rewrite Ho.
  eexists; split; [reflexivity |]; simpl.
  split; [exact G | intros i Hi; exact (H i Hi)].
Qed.

Lemma populateListAsync_options_rejected_witness :
  exists s', populateListAsync 0 (fun (fr d : nat) (_ : jsobject nat) h => (h, d)) (Plain [1; 2])
               (Some (Prom (mkFut 5 (Err (Rejection "x"))))) ol_state
             = (Err (Rejection "x"), s') /\ log s' = [] /\ hp s' 0 = hp ol_state 0.
Proof.
  destruct (populateListAsync_options_rejected 0 [0] (fun (fr d : nat) (_ : jsobject nat) h => (h, d))
              (Plain [1; 2]) [1; 2] (Prom (mkFut 5 (Err (Rejection "x")))) (Rejection "x")
              ol_state) as (s' & E & L & H);
    [reflexivity | left; reflexivity | discriminate | exists 5; reflexivity |].
  exists s'; split; [exact E | split; [exact L | apply H; simpl; lia]].
Defined.

(** ** Rejected arguments of [processAsync] *)

Lemma processAsync_static_rejects {V W : Type} (frag : nat) (ia : @ProcessingFunctionAsync V W)
    (data : maybe_future V) (d : V) (options : option (maybe_future (jsobject W)))
    (e : error) (s : St V W) :
  (rejects data e \/ (fulfils data d /\ exists oa, options = Some oa /\ rejects oa e)) ->
  exists T, processAsync_static frag ia data options s
            = (Err e, mkSt (hp s) (next s) T (log s)).
Proof.
  intros [(t & ->) | (Hd & oa & -> & t & ->)].
  - eexists; reflexivity.
  - unfold processAsync_static, bind at 1; rewrite (await_fulfils data d s Hd).
    eexists; reflexivity.
Qed.

(** X8: when the data promise rejects, or the data fulfils and the options
    promise rejects, static [Processor.processAsync] rejects with that
    reason, leaving the heap and the log as they were; and
    [Processor#processAsync] rejects with it too, having called neither
    fill function: it logs only the fallback warning when it has no
    asynchronous fill, and changes no existing object. *)
Theorem processAsync_rejects_without_fill {V W : Type} (p : @Processor V W) (frag : nat)
    (ia : @ProcessingFunctionAsync V W) (data : maybe_future V) (d : V)
    (options : option (maybe_future (jsobject W))) (e : error) (s : St V W) :
  (rejects data e \/ (fulfils data d /\ exists oa, options = Some oa /\ rejects oa e)) ->
  (exists T, processAsync_static frag ia data options s
             = (Err e, mkSt (hp s) (next s) T (log s))) /\
  (exists s', processAsync p data options s = (Err e, s') /\
              log s' = (log s ++ match _INSTRUCTIONS_ASYNC p with
                                 | None => [EWarn msg_warn]
                                 | Some _ => []
                                 end)%list /\
              (forall i, i < next s -> hp s' i = hp s i)).
Proof.
  intro Hr; split; [exact (processAsync_static_rejects frag ia data d options e s Hr) |].
  unfold processAsync; destruct (_INSTRUCTIONS_ASYNC p) as [ia' |] eqn:Hp.
  - set (s1 := mkSt (upd (hp s) (next s)
                         (mkObj "#document-fragment" (tmpl_content (hp s) (_TEMPLATE p))))
                    (S (next s)) (now s) (log s)).
    destruct (processAsync_static_rejects (next s) ia' data d options e s1 Hr) as (T & E).
    unfold bind at 1; unfold clone_content at 1; simpl; fold s1; rewrite E.
    eexists; split; [reflexivity |]; simpl.
    split; [rewrite app_nil_r; reflexivity |].
    intros i Hi; apply upd_other; lia.
  - destruct Hr as [(t & ->) | (Hd & oa & -> & t & ->)].
    + eexists; split; [reflexivity |]; simpl; split; [reflexivity | reflexivity].
    + unfold bind at 1, emit; simpl.
      unfold bind at 1; rewrite (await_fulfils data d _ Hd).
      eexists; split; [reflexivity |]; simpl; split; [reflexivity | reflexivity].
Qed.

Lemma processAsync_rejects_without_fill_witness :
  (exists T, processAsync_static 1 (fun (fr d : nat) (_ : jsobject nat) h => (h, d))
               (Prom (mkFut 5 (Err (Rejection "x")))) None ol_state
             = (Err (Rejection "x"), mkSt (hp ol_state) 1 T [])) /\
  (exists s', processAsync (ol_processor None) (Prom (mkFut 5 (Err (Rejection "x")))) None
                ol_state = (Err (Rejection "x"), s') /\ log s' = [EWarn msg_warn]).
Proof.
  destruct (processAsync_rejects_without_fill (ol_processor None) 1
              (fun (fr d : nat) (_ : jsobject nat) h => (h, d))
              (Prom (mkFut 5 (Err (Rejection "x")))) 0 None (Rejection "x") ol_state)
    as [S (s' & E & L & _)]; [left; exists 5; reflexivity |].
  split; [exact S | exists s'; split; [exact E | exact L]].
Defined.

(** ** The fills and the append of [populateList] *)

Lemma mapM_process_log {V W : Type} (pr : @Processor V W) (options : option (jsobject W))
    (ds : list V) :
  _INSTRUCTIONS_ASYNC pr = None ->
  forall st, exists st',
    mapM (fun data => process pr data options) ds st = (Ok (seq (next st) (length ds)), st') /\
    next st' = next st + length ds /\ now st' = now st /\
    log st' = (log st ++ sync_log (next st) ds (default_options options []) (now st))%list.
Proof.
  intro Hp; induction ds as [| d ds IH]; intro st.
  - exists st; simpl; rewrite app_nil_r; repeat split; lia.
  - set (st1 := mkSt (_INSTRUCTIONS pr (next st) d (default_options options [])
                        (upd (hp st) (next st)
                             (mkObj "#document-fragment" (tmpl_content (hp st) (_TEMPLATE pr)))))
                     (S (next st)) (now st)
                     (log st ++ [ECall (next st) d (default_options options []) (now st)])%list).
    assert (E1 : process pr d options st = (Ok (next st), st1)).
    { unfold process; rewrite Hp; reflexivity. }
    destruct (IH st1) as (st' & E & N & T & G).
    exists st'; cbn [mapM]; rewrite E1, E; simpl in *.
    split; [reflexivity | split; [lia | split; [exact T |]]].
    rewrite G, <- app_assoc; reflexivity.
Qed.

Lemma empty_frags_in (frags : list nat) (h : heap) (fr : nat) :
  In fr frags ->
  okids (fold_left (fun h' f => upd h' f (mkObj (otag (h' f)) [])) frags h fr) = [].
Proof.
  revert h; induction frags as [| f frags IH]; intros h Hin; [destruct Hin |].
  simpl; destruct (in_dec Nat.eq_dec fr frags) as [Hi | Hn].
  - exact (IH _ Hi).
  - destruct Hin as [-> | Hi]; [| contradiction].
    rewrite empty_frags_other by exact Hn; rewrite upd_same; reflexivity.
Qed.

(** X9: on a container (an allocated object) whose template passes
    [checkDOM], [populateList] calls the fill function once per record, in
    dataset order, on fragments [next s], [next s + 1], ..., all at the
    current time, and only then appends, once; the fragments it allocated
    are left empty, their child nodes having moved into the container. *)
Theorem populateList_fill_order_and_empty_fragments {V W : Type} (list_el : nat) (tp : path)
    (f : @ProcessingFunction V W) (ds : list V) (options : option (jsobject W)) (s : St V W) :
  list_el < next s ->
  checkDOM (otag (hp s list_el)) (okids (hp s list_el)) = Ok tp ->
  exists s', populateList list_el f ds options s = (Ok tt, s') /\
    next s' = next s + length ds /\ now s' = now s /\
    log s' = (log s ++ sync_log (next s) ds (default_options options []) (now s)
                    ++ [EAppend list_el (now s)])%list /\
    (forall fr, next s <= fr < next s + length ds -> okids (hp s' fr) = []).
Proof.
  intros Hlt Hc.
  destruct (mapM_process_log (mkProcessor (list_el, tp) f None) options ds eq_refl s)
    as (st' & E & N & T & G).
  unfold populateList, bind at 1, read_obj.
  unfold bind at 1; rewrite Hc; simpl.
  unfold bind at 1; rewrite E.
  unfold append; eexists; split; [reflexivity |]; simpl.
  split; [exact N | split; [exact T | split]].
  - rewrite G, T, <- app_assoc; reflexivity.
  - intros fr Hfr; rewrite upd_other by lia.
    apply empty_frags_in; apply in_seq; lia.
Qed.

Lemma populateList_fill_order_and_empty_fragments_witness :
  exists s', populateList 0 (fun _ _ _ h => h) [1; 2] None ol_state = (Ok tt, s') /\
    next s' = 3 /\ log s' = [ECall 1 1 [] 0; ECall 2 2 [] 0; EAppend 0 0] /\
    okids (hp s' 1) = [] /\ okids (hp s' 2) = [].
Proof.
  destruct (@populateList_fill_order_and_empty_fragments nat nat 0 [0] (fun _ _ _ h => h)
              [1; 2] None ol_state) as (s' & E & N & _ & L & F);
    [simpl; lia | reflexivity |].
  exists s'; split; [exact E |]; split; [exact N |]; split; [rewrite L; reflexivity |].
  split; apply F; simpl; lia.
Defined.

(** ** [Promise.all] *)





(** ** The class [ProcessorAsync] *)

(** X11: [ProcessorAsync#process(data, options)] of [ProcessorAsync.class.ts]
    behaves exactly as [Processor#processAsync(data, options)] of a
    [Processor] with the same template and the same asynchronous fill
    function (whatever its synchronous one), on a data value and an options
    value that are not promises: same fragment returned, same heap, same
    clock and same log. *)
Theorem processorAsync_process_as_processAsync {V W : Type} (t : tref)
    (fa : @ProcessingFunctionAsync V W) (g : @ProcessingFunction V W)
    (d : V) (o : option (jsobject W)) (s : St V W) :
  ProcessorAsyncClass.process (ProcessorAsyncClass.mkProcessorAsync t fa) d o s
  = processAsync (mkProcessor t g (Some fa)) (Plain d) (option_map Plain o) s.
Proof. destruct o; reflexivity. Qed.

(** ** The [<dl>] checks on content without nesting *)

Lemma qs_go_no_elem (pred : list node -> node -> list node -> bool) (ks : list node) :
  children ks = [] -> forall before i, qs_go pred before i ks = None.
Proof.
  induction ks as [| x ks IH]; intros Hc before i; [reflexivity |].
  destruct x as [s | t ks' c]; [| discriminate Hc].
  simpl; apply IH; exact Hc.
Qed.

Lemma flat_qs_node (pred : list node -> node -> list node -> bool) (x : node) :
  match x with Elem _ ks _ => children ks = [] | Text _ => True end ->
  qs_node pred x = None.
Proof.
  destruct x as [s | t ks c]; intro H; [reflexivity |].
  rewrite qs_node_elem; apply qs_go_no_elem; exact H.
Qed.

Lemma descendants_no_elem (ks : list node) : children ks = [] -> descendants ks = [].
Proof.
  induction ks as [| x ks IH]; intro H; [reflexivity |].
  destruct x as [s | t ks' c]; [exact (IH H) | discriminate H].
Qed.

Lemma flat_descendants (l : list node) : flat l -> descendants l = children l.
Proof.
  induction 1 as [| x l Hx _ IH]; [reflexivity |].
  unfold descendants, children in *; simpl.
  destruct x as [s | t ks c]; simpl; [exact IH |].
  fold (descendants ks); rewrite (descendants_no_elem ks Hx), IH; reflexivity.
Qed.

Lemma qs_flat_found (pred : list node -> node -> list node -> bool) (l : list node) :
  flat l -> forall before i p x, qs_go pred before i l = Some (p, x) ->
    exists j, p = [i + j] /\ nth_error l j = Some x /\ is_elem x = true /\
      pred (before ++ firstn j l)%list x (skipn (S j) l) = true.
Proof.
  induction 1 as [| y l Hy _ IH]; intros before i p x H; simpl in H; [discriminate |].
  destruct (is_elem y && pred before y l) eqn:Hp.
  - injection H as <- <-; apply andb_prop in Hp.
    exists 0; simpl; rewrite app_nil_r, Nat.add_0_r; tauto.
  - rewrite (flat_qs_node pred y Hy) in H.
    destruct (IH _ _ _ _ H) as (j & -> & Hn & He & Hpr).
    exists (S j); simpl; rewrite <- app_assoc in Hpr; simpl in Hpr.
    split; [f_equal; f_equal; lia | tauto].
Qed.

Lemma qs_flat_none (pred : list node -> node -> list node -> bool) (l : list node) :
  flat l -> forall before i, qs_go pred before i l = None ->
    forall j x, nth_error l j = Some x ->
      is_elem x && pred (before ++ firstn j l)%list x (skipn (S j) l) = false.
Proof.
  induction 1 as [| y l Hy _ IH]; intros before i H j x Hn; [destruct j; discriminate |].
  simpl in H; destruct (is_elem y && pred before y l) eqn:Hp; [discriminate |].
  rewrite (flat_qs_node pred y Hy) in H.
  destruct j as [| j]; simpl in Hn.
  - injection Hn as <-; simpl; rewrite app_nil_r; exact Hp.
  - pose proof (IH _ _ H j x Hn) as R; rewrite <- app_assoc in R; exact R.
Qed.

Lemma nth_split {A : Type} (l : list A) (j : nat) (x : A) :
  nth_error l j = Some x -> l = (firstn j l ++ x :: skipn (S j) l)%list.
Proof.
  revert j; induction l as [| y l IH]; intros [| j] H; simpl in *; try discriminate.
  - injection H as ->; reflexivity.
  - f_equal; apply IH; exact H.
Qed.

Lemma split_pos {A : Type} (l1 l2 : list A) (x : A) :
  nth_error (l1 ++ x :: l2) (length l1) = Some x /\
  firstn (length l1) (l1 ++ x :: l2) = l1 /\
  skipn (S (length l1)) (l1 ++ x :: l2) = l2.
Proof.
  induction l1 as [| y l1 IH]; simpl; [tauto |].
  destruct IH as (H1 & H2 & H3); rewrite H2; tauto.
Qed.

Lemma children_at (l : list node) (j : nat) (x : node) :
  nth_error l j = Some x -> is_elem x = true ->
  children l = (children (firstn j l) ++ x :: children (skipn (S j) l))%list.
Proof.
  intros H He; rewrite (nth_split l j x H) at 1.
  unfold children; rewrite filter_app; simpl; rewrite He; reflexivity.
Qed.

Lemma exists_last_split {A : Type} (P : A -> bool) (l : list A) :
  (exists y, In y l /\ P y = true) ->
  exists l1 x l2, l = (l1 ++ x :: l2)%list /\ P x = true /\
                  forallb (fun z => negb (P z)) l2 = true.
Proof.
  induction l as [| a l IH]; intros (y & Hin & Hy); [destruct Hin |].
  destruct (existsb P l) eqn:E.
  - apply existsb_exists in E; destruct (IH E) as (l1 & x & l2 & -> & Hx & H2).
    exists (a :: l1), x, l2; split; [reflexivity | tauto].
  - destruct Hin as [-> | Hin].
    + exists [], y, l; split; [reflexivity | split; [exact Hy |]].
      apply forallb_forall; intros z Hz; destruct (P z) eqn:Pz; [| reflexivity].
      assert (existsb P l = true) by (apply existsb_exists; eauto); congruence.
    + assert (existsb P l = true) by (apply existsb_exists; eauto); congruence.
Qed.

Lemma exists_first_split {A : Type} (P : A -> bool) (l : list A) :
  (exists y, In y l /\ P y = true) ->
  exists l1 x l2, l = (l1 ++ x :: l2)%list /\ P x = true /\
                  forallb (fun z => negb (P z)) l1 = true.
Proof.
  induction l as [| a l IH]; intros (y & Hin & Hy); [destruct Hin |].
  destruct (P a) eqn:Pa.
  - exists [], a, l; split; [reflexivity | split; [exact Pa | reflexivity]].
  - destruct Hin as [-> | Hin]; [congruence |].
    destruct (IH (ex_intro _ y (conj Hin Hy))) as (l1 & x & l2 & -> & Hx & H1).
    exists (a :: l1), x, l2; split; [reflexivity | split; [exact Hx |]].
    simpl; rewrite Pa, H1; reflexivity.
Qed.
Lemma lower_in (l : list node) (z : node) :
  lower_tags l -> In z l -> match z with Elem t _ _ => toLowerCase t = t | Text _ => True end.
Proof. intros H Hin; unfold lower_tags in H; rewrite Forall_forall in H; exact (H z Hin). Qed.

Lemma in_firstn_l {A : Type} (j : nat) (l : list A) (z : A) : In z (firstn j l) -> In z l.
Proof. intro H; rewrite <- (firstn_skipn j l); apply in_or_app; left; exact H. Qed.

Lemma in_skipn_l {A : Type} (j : nat) (l : list A) (z : A) : In z (skipn j l) -> In z l.
Proof. intro H; rewrite <- (firstn_skipn j l); apply in_or_app; right; exact H. Qed.

Lemma matched_tag (s t : string) ks c :
  toLowerCase t = t -> matches s (Elem t ks c) = true -> t = s.
Proof. intros Hl Hm; unfold matches in Hm; rewrite Hl in Hm; apply String.eqb_eq; exact Hm. Qed.

Lemma forallb_same_type (s : string) ks c (r : list node) :
  (forall z, In z r -> match z with Elem t _ _ => toLowerCase t = t | Text _ => True end) ->
  forallb (fun y => negb (same_type (Elem s ks c) y)) r = forallb (fun y => negb (matches s y)) r.
Proof.
  induction r as [| z r IH]; intro H; [reflexivity |]; cbn [forallb].
  rewrite IH by (intros z' Hz'; apply H; right; exact Hz').
  destruct z as [u | tz ks' c']; [reflexivity |].
  unfold matches; rewrite (H _ (or_introl eq_refl)), String.eqb_sym; reflexivity.
Qed.

Lemma last_of_type_found (s : string) (l : list node) (p : path) (x : node) :
  flat l -> lower_tags l -> querySelector (sel_last_of_type s) l = Some (p, x) ->
  exists j, p = [j] /\ nth_error l j = Some x /\ matches s x = true /\
            forallb (fun y => negb (matches s y)) (skipn (S j) l) = true.
Proof.
  intros Hf Hl H; destruct (qs_flat_found _ l Hf [] 0 p x H) as (j & -> & Hn & He & Hp).
  unfold sel_last_of_type in Hp; apply andb_prop in Hp; destruct Hp as [Hm Hr].
  exists j; split; [reflexivity | split; [exact Hn | split; [exact Hm |]]].
  pose proof (lower_in l x Hl (nth_error_In _ _ Hn)) as Hx.
  destruct x as [u | tx ks c]; [discriminate |].
  rewrite (matched_tag s tx ks c Hx Hm) in Hr.
  rewrite forallb_same_type in Hr; [exact Hr |].
  intros z Hz; exact (lower_in l z Hl (in_skipn_l _ _ _ Hz)).
Qed.

Lemma first_of_type_found (s : string) (l : list node) (p : path) (x : node) :
  flat l -> lower_tags l -> querySelector (sel_first_of_type s) l = Some (p, x) ->
  exists j, p = [j] /\ nth_error l j = Some x /\ matches s x = true /\
            forallb (fun y => negb (matches s y)) (firstn j l) = true.
Proof.
  intros Hf Hl H; destruct (qs_flat_found _ l Hf [] 0 p x H) as (j & -> & Hn & He & Hp).
  unfold sel_first_of_type in Hp; apply andb_prop in Hp; destruct Hp as [Hm Hr].
  exists j; split; [reflexivity | split; [exact Hn | split; [exact Hm |]]].
  pose proof (lower_in l x Hl (nth_error_In _ _ Hn)) as Hx.
  destruct x as [u | tx ks c]; [discriminate |].
  rewrite (matched_tag s tx ks c Hx Hm) in Hr.
  rewrite forallb_same_type in Hr; [exact Hr |].
  intros z Hz; exact (lower_in l z Hl (in_firstn_l _ _ _ Hz)).
Qed.

Lemma last_of_type_exists (s : string) (l : list node) :
  flat l -> lower_tags l -> (exists y, In y l /\ matches s y = true) ->
  querySelector (sel_last_of_type s) l <> None.
Proof.
  intros Hf Hl Hex Hn.
  destruct (exists_last_split (matches s) l Hex) as (l1 & x & l2 & Hsplit & Hx & H2).
  destruct (split_pos l1 l2 x) as (P1 & P2 & P3); rewrite <- Hsplit in P1, P2, P3.
  pose proof (qs_flat_none _ l Hf [] 0 Hn (length l1) x P1) as C.
  rewrite P3 in C; unfold sel_last_of_type in C.
  pose proof (lower_in l x Hl (nth_error_In _ _ P1)) as Hxl.
  destruct x as [u | tx ks c]; [discriminate |].
  pose proof (matched_tag s tx ks c Hxl Hx) as ->.
  rewrite forallb_same_type, Hx, H2 in C; [discriminate |].
  intros z Hz; apply (lower_in l z Hl); rewrite Hsplit; apply in_or_app; right; right; exact Hz.
Qed.

Lemma first_of_type_exists (s : string) (l : list node) :
  flat l -> lower_tags l -> (exists y, In y l /\ matches s y = true) ->
  querySelector (sel_first_of_type s) l <> None.
Proof.
  intros Hf Hl Hex Hn.
  destruct (exists_first_split (matches s) l Hex) as (l1 & x & l2 & Hsplit & Hx & H1).
  destruct (split_pos l1 l2 x) as (P1 & P2 & P3); rewrite <- Hsplit in P1, P2, P3.
  pose proof (qs_flat_none _ l Hf [] 0 Hn (length l1) x P1) as C.
  rewrite P2 in C; unfold sel_first_of_type in C; simpl in C.
  pose proof (lower_in l x Hl (nth_error_In _ _ P1)) as Hxl.
  destruct x as [u | tx ks c]; [discriminate |].
  pose proof (matched_tag s tx ks c Hxl Hx) as ->.
  rewrite forallb_same_type, Hx, H1 in C; [discriminate |].
  intros z Hz; apply (lower_in l z Hl); rewrite Hsplit; apply in_or_app; left; exact Hz.
Qed.

Lemma idx_facts (l : list node) (j : nat) (x : node) :
  nth_error l j = Some x -> is_elem x = true ->
  nth_error (children l) (length (children (firstn j l))) = Some x /\
  firstn (length (children (firstn j l))) (children l) = children (firstn j l) /\
  skipn (S (length (children (firstn j l)))) (children l) = children (skipn (S j) l).
Proof.
  intros H He; rewrite (children_at l j x H He); apply split_pos.
Qed.

Lemma children_forallb (s : string) (r : list node) :
  forallb (fun y => negb (matches s y)) r = true ->
  forall z, In z (children r) -> matches s z = false.
Proof.
  intros H z Hz; unfold children in Hz; apply filter_In in Hz.
  rewrite forallb_forall in H; specialize (H z (proj1 Hz)).
  destruct (matches s z); [discriminate | reflexivity].
Qed.

Lemma dt_not_dd (z : node) : matches "dt" z = true -> matches "dd" z = false.
Proof.
  destruct z as [u | t ks c]; simpl; [discriminate |].
  intro H; apply String.eqb_eq in H; rewrite H; reflexivity.
Qed.

Lemma sel_tag_exists (s : string) (l : list node) :
  flat l -> (exists y, In y l /\ matches s y = true) ->
  querySelector (sel_tag s) l <> None.
Proof.
  intros Hf (y & Hin & Hy) Hn.
  destruct (In_nth_error l y Hin) as (j & Hj).
  pose proof (qs_flat_none _ l Hf [] 0 Hn j y Hj) as C.
  unfold sel_tag in C; rewrite Hy in C.
  destruct y; [discriminate | discriminate].
Qed.

Lemma in_children (l : list node) (z : node) : In z (children l) -> In z l /\ is_elem z = true.
Proof. unfold children; apply filter_In. Qed.

Lemma check_content_dl_flat (l : list node) :
  flat l -> lower_tags l ->
  check_content "dl" l = Ok tt <->
  exists a b, children l = (a ++ b)%list /\ a <> [] /\ b <> [] /\
    Forall (fun x => matches "dt" x = true) a /\ Forall (fun x => matches "dd" x = true) b.
Proof.
  intros Hf Hl; unfold check_content.
  replace (child_tagname "dl") with (Some "dt-dd") by reflexivity.
  cbv beta iota; change (negb (String.eqb "dt-dd" "dt-dd")) with false; cbv beta iota.
  rewrite (flat_descendants l Hf).
  split.
  - intro H.
    destruct (length (children l) <? 2)%nat eqn:H2; [discriminate |].
    destruct (querySelector (sel_tag "dt") l) as [[p1 y1] |] eqn:Q1; [| discriminate].
    destruct (querySelector (sel_tag "dd") l) as [[p2 y2] |] eqn:Q2; [| discriminate].
    destruct (existsb (fun el => negb (matches "dt" el || matches "dd" el)) (children l))
      eqn:He; [discriminate |].
    assert (Hall : forall z, In z (children l) ->
                     matches "dt" z = true \/ matches "dd" z = true).
    { intros z Hz; destruct (matches "dt" z) eqn:M1; [left; reflexivity |].
      destruct (matches "dd" z) eqn:M2; [right; reflexivity |]; exfalso.
      assert (existsb (fun el => negb (matches "dt" el || matches "dd" el)) (children l) = true)
        by (apply existsb_exists; exists z; rewrite M1, M2; split; [exact Hz | reflexivity]).
      congruence. }
    assert (Hdt : exists y, In y l /\ matches "dt" y = true).
    { unfold querySelector in Q1.
      destruct (qs_flat_found _ l Hf [] 0 _ _ Q1) as (j & _ & Hn & _ & Hp).
      exists y1; split; [exact (nth_error_In _ _ Hn) | exact Hp]. }
    destruct (querySelector (sel_last_of_type "dt") l) as [[pa xa] |] eqn:QA;
      [| exfalso; exact (last_of_type_exists "dt" l Hf Hl Hdt QA)].
    destruct (last_of_type_found "dt" l pa xa Hf Hl QA) as (ja & -> & Hna & Hma & Hra).
    assert (Hxa : is_elem xa = true) by (destruct xa; [discriminate | reflexivity]).
    destruct (idx_facts l ja xa Hna Hxa) as (IA1 & IA2 & IA3).
    destruct (querySelector (sel_first_of_type "dd") l) as [[pb xb] |] eqn:QB.
    2: { exfalso; unfold indexOf_children, elem_index in H.
         destruct (Z.of_nat (length (children (firstn ja l))) >=? -1)%Z eqn:C;
           [discriminate |].
         rewrite Z.geb_leb in C; apply Z.leb_gt in C; lia. }
    destruct (first_of_type_found "dd" l pb xb Hf Hl QB) as (jb & -> & Hnb & Hmb & Hrb).
    assert (Hxb : is_elem xb = true) by (destruct xb; [discriminate | reflexivity]).
    destruct (idx_facts l jb xb Hnb Hxb) as (IB1 & IB2 & IB3).
    unfold indexOf_children, elem_index in H.
    set (A := length (children (firstn ja l))) in *.
    set (B := length (children (firstn jb l))) in *.
    assert (AB : A < B).
    { destruct (Z.of_nat A >=? Z.of_nat B)%Z eqn:C; [discriminate |].
      rewrite Z.geb_leb in C; apply Z.leb_gt in C; lia. }
    assert (BL : B < length (children l)) by (apply nth_error_Some; rewrite IB1; discriminate).
    exists (firstn B (children l)), (skipn B (children l)).
    split; [symmetry; apply firstn_skipn |].
    split; [intro E; apply (f_equal (@length _)) in E; rewrite length_firstn in E; simpl in E; lia |].
    split; [intro E; apply (f_equal (@length _)) in E; rewrite length_skipn in E; simpl in E; lia |].
    split; apply Forall_forall; intros z Hz.
    + assert (Hzl : In z (children l)) by exact (in_firstn_l _ _ _ Hz).
      rewrite IB2 in Hz; pose proof (children_forallb "dd" _ Hrb z Hz) as Nz.
      destruct (Hall z Hzl) as [D | D]; [exact D | congruence].
    + assert (Hzl : In z (children l)) by exact (in_skipn_l _ _ _ Hz).
      replace B with ((B - S A) + S A) in Hz by lia.
      rewrite <- skipn_skipn, IA3 in Hz; apply in_skipn_l in Hz.
      pose proof (children_forallb "dt" _ Hra z Hz) as Nz.
      destruct (Hall z Hzl) as [D | D]; [congruence | exact D].
  - intros (a & b & Hab & Ha & Hb & Fa & Fb).
    rewrite Forall_forall in Fa, Fb.
    assert (Hall : forall z, In z (children l) ->
                     matches "dt" z = true \/ matches "dd" z = true).
    { intros z Hz; rewrite Hab in Hz; apply in_app_or in Hz.
      destruct Hz as [Hz | Hz]; [left; exact (Fa z Hz) | right; exact (Fb z Hz)]. }
    destruct a as [| x a]; [congruence |]; destruct b as [| y b]; [congruence |].
    assert (Hx : In x (children l)) by (rewrite Hab; left; reflexivity).
    assert (Hy : In y (children l)) by (rewrite Hab; apply in_or_app; right; left; reflexivity).
    assert (Hdt : exists z, In z l /\ matches "dt" z = true)
      by (exists x; split; [exact (proj1 (in_children _ _ Hx)) | apply Fa; left; reflexivity]).
    assert (Hdd : exists z, In z l /\ matches "dd" z = true)
      by (exists y; split; [exact (proj1 (in_children _ _ Hy)) | apply Fb; left; reflexivity]).
    replace (length (children l) <? 2)%nat with false
      by (symmetry; apply Nat.ltb_ge; rewrite Hab, length_app; simpl; lia).
    destruct (querySelector (sel_tag "dt") l) as [r1 |] eqn:Q1;
      [| exfalso; exact (sel_tag_exists "dt" l Hf Hdt Q1)].
    destruct (querySelector (sel_tag "dd") l) as [r2 |] eqn:Q2;
      [| exfalso; exact (sel_tag_exists "dd" l Hf Hdd Q2)].
    destruct r1, r2.
    replace (existsb (fun el => negb (matches "dt" el || matches "dd" el)) (children l))
      with false.
    2: { symmetry; apply Bool.not_true_iff_false; intro E; apply existsb_exists in E.
         destruct E as (z & Hz & Nz); destruct (Hall z Hz) as [D | D]; rewrite D in Nz;
           [discriminate | rewrite orb_true_r in Nz; discriminate]. }
    destruct (querySelector (sel_last_of_type "dt") l) as [[pa xa] |] eqn:QA;
      [| exfalso; exact (last_of_type_exists "dt" l Hf Hl Hdt QA)].
    destruct (last_of_type_found "dt" l pa xa Hf Hl QA) as (ja & -> & Hna & Hma & _).
    assert (Hxa : is_elem xa = true) by (destruct xa; [discriminate | reflexivity]).
    destruct (idx_facts l ja xa Hna Hxa) as (IA1 & _ & _).
    destruct (querySelector (sel_first_of_type "dd") l) as [[pb xb] |] eqn:QB;
      [| exfalso; exact (first_of_type_exists "dd" l Hf Hl Hdd QB)].
    destruct (first_of_type_found "dd" l pb xb Hf Hl QB) as (jb & -> & Hnb & Hmb & _).
    assert (Hxb : is_elem xb = true) by (destruct xb; [discriminate | reflexivity]).
    destruct (idx_facts l jb xb Hnb Hxb) as (IB1 & _ & _).
    unfold indexOf_children, elem_index.
    set (A := length (children (firstn ja l))) in *.
    set (B := length (children (firstn jb l))) in *.
    rewrite Hab in IA1, IB1.
    assert (HA : A < length (x :: a)).
    { destruct (Nat.lt_ge_cases A (length (x :: a))) as [C | C]; [exact C | exfalso].
      rewrite nth_error_app2 in IA1 by exact C.
      pose proof (Fb xa (nth_error_In _ _ IA1)) as D; rewrite (dt_not_dd xa Hma) in D;
        discriminate. }
    assert (HB : length (x :: a) <= B).
    { destruct (Nat.lt_ge_cases B (length (x :: a))) as [C | C]; [exfalso | exact C].
      rewrite nth_error_app1 in IB1 by exact C.
      pose proof (Fa xb (nth_error_In _ _ IB1)) as D; rewrite (dt_not_dd xb D) in Hmb;
        discriminate. }
    replace (Z.of_nat A >=? Z.of_nat B)%Z with false; [reflexivity |].
    symmetry; rewrite Z.geb_leb; apply Z.leb_gt; lia.
Qed.

(** X12: for a [<dl>] whose template content has no nested elements and
    lower-case tag names, [checkDOM] accepts it exactly when the template's
    element children are one or more [<dt>] followed by one or more
    [<dd>]. *)
Theorem checkDOM_dl_flat_iff (tagName : string) (kids : list node) (p : path) (t : node) :
  toLowerCase tagName = "dl" ->
  querySelector (sel_tag "template") kids = Some (p, t) ->
  flat (template_content t) -> lower_tags (template_content t) ->
  checkDOM tagName kids = Ok p <->
  exists a b, children (template_content t) = (a ++ b)%list /\ a <> [] /\ b <> [] /\
    Forall (fun x => matches "dt" x = true) a /\ Forall (fun x => matches "dd" x = true) b.
Proof.
  intros Hdl Hq Hf Hl; unfold checkDOM; rewrite Hq, Hdl.
  rewrite <- (check_content_dl_flat _ Hf Hl).
  destruct (check_content "dl" (template_content t)) as [[] | e];
    split; intro H; first [reflexivity | discriminate].
Qed.

Lemma checkDOM_dl_flat_iff_witness :
  checkDOM "DL" [Elem "template" [] [Text " "; Elem "dt" [] []; Elem "dt" [] [];
                                     Text " "; Elem "dd" [] []]] = Ok [0]
  <-> exists a b,
    children [Text " "; Elem "dt" [] []; Elem "dt" [] []; Text " "; Elem "dd" [] []]
      = (a ++ b)%list /\ a <> [] /\ b <> [] /\
    Forall (fun x => matches "dt" x = true) a /\ Forall (fun x => matches "dd" x = true) b.
Proof.
  apply (checkDOM_dl_flat_iff "DL"
           [Elem "template" [] [Text " "; Elem "dt" [] []; Elem "dt" [] [];
                                Text " "; Elem "dd" [] []]]
           [0] (Elem "template" [] [Text " "; Elem "dt" [] []; Elem "dt" [] [];
                                    Text " "; Elem "dd" [] []]));
    [reflexivity | reflexivity | repeat constructor | repeat constructor].
Defined.
